(** * correlation.corr: confidence intervals of correlation coefficients

    A shallow embedding of [corr] from [correlation.py] and the properties
    its specification states about it.

    Numbers.  The properties are stated over two models of [corr].  In the
    first, Python floats are idealised as the real numbers [R] of the
    Standard Library: [+], [-], [*], [/], [abs], [np.log], [np.sqrt] and
    [np.exp] are the exact real operations, and rounding, infinities and NaN
    are not represented.  A division of Python numbers by zero raises
    [ZeroDivisionError], as in Python.  Where numpy would return an infinity
    or NaN and go on (a numpy scalar divided by zero, the logarithm of a
    non-positive number, the square root of a negative number) the run of
    this model ends with [NotReal], which marks the end of what the reals
    can say and is no exception of the program.  The second model, [F64],
    is [corr] over binary64 floats with infinities and NaN; it is run on
    concrete inputs at the end of the file, where the exact value of a
    bound matters.

    Effects.  [corr] calls four external capabilities: a correlation
    statistic, the inverse normal distribution function, numpy's random
    sampler and numpy's quantile.  They are variables of the section below.
    A run of [corr] threads the state of the random generator and writes a
    log of the external calls it makes, in program order. *)

From Stdlib Require Import Floats Uint63.
From Stdlib Require Import Reals Lra Lia List String ZArith Bool.
#[local] Set Warnings "-inexact-float".
Import ListNotations.
Open Scope R_scope.

(** ** Python run-time fragments *)

Module Py.

(** Exceptions [corr] can end with.  [External] wraps an exception raised
    inside an external capability; it is propagated unchanged.  [NotReal]
    is no Python exception: it ends a run over the reals where numpy
    returns an infinity or NaN. *)
Inductive exn : Type :=
| KeyError (msg : string)
| TypeError (msg : string)
| ZeroDivisionError
| IndexError
| NotReal
| External (msg : string).

Inductive outcome (A : Type) : Type :=
| Ok (a : A)
| Raise (e : exn).
Arguments Ok {A} a.
Arguments Raise {A} e.

(** What an external capability hands back: a value or its own exception. *)
Inductive provided (A : Type) : Type :=
| Returned (a : A)
| Failed (msg : string).
Arguments Returned {A} a.
Arguments Failed {A} msg.

(** A [dict] with string keys, in insertion order. *)
Definition dict (V : Type) : Type := list (string * V).

Fixpoint dict_get {V : Type} (d : dict V) (k : string) : option V :=
  match d with
  | [] => None
  | (k', v) :: d' => if String.eqb k k' then Some v else dict_get d' k
  end.

(** [k in d] *)
Definition dict_mem {V : Type} (d : dict V) (k : string) : bool :=
  match dict_get d k with Some _ => true | None => false end.

(** [x is not None] *)
Definition is_not_None {A : Type} (x : option A) : bool :=
  match x with Some _ => true | None => false end.

Definition Rltb (a b : R) : bool := if Rlt_dec a b then true else false.
Definition Reqb (a b : R) : bool := if Req_dec_T a b then true else false.

End Py.
Import Py.

(** [np.asarray(x).ravel()]: a 1-D array of floats. *)
Definition array : Type := list R.

(** A correlation statistic: [(x, y, **kwargs) -> (coefficient, p-value)],
    for keyword arguments of type [K]. *)
Definition stat_fn (K : Type) : Type := array -> array -> K -> provided (R * R).

(** A numerator of the standard error: a Python number ([.437] and [1]) or
    a numpy scalar ([1 + r ** 2 / 2.] at the [numpy.float64] scipy
    returns). *)
Inductive number : Type :=
| PyNumber (v : R)
| NpFloat64 (v : R).

Definition value_of (a : number) : R :=
  match a with
  | PyNumber v => v
  | NpFloat64 v => v
  end.

(** ** Concrete providers

    Small stand-ins for the external capabilities, to run the model on
    concrete inputs. *)

Module Doubles.

(** A statistic that ignores the data. *)
Definition const_stat (c p : R) : stat_fn unit :=
  fun _ _ _ => Returned (c, p).


(** The normal quantile, known at 0.975 only. *)
Definition ppf_975 (p : R) : R := 1.96.

(** A generator whose state counts the draws and that draws index 0
    every time. *)
Definition zero_draw (g n b : nat) : list (list nat) * nat :=
  (repeat (repeat 0%nat n) b, S g).

Fixpoint insert_sorted (v : R) (l : list R) : list R :=
  match l with
  | [] => [v]
  | h :: t => if Rle_dec v h then v :: l else h :: insert_sorted v t
  end.

Definition sort (l : list R) : list R := fold_right insert_sorted [] l.

(** The quantile by linear interpolation between the two nearest order
    statistics, numpy's default. *)
Definition quantile_linear (a : list R) (q : R) : provided R :=
  if Rltb q 0 || Rltb 1 q
  then Failed "Quantiles must be in the range [0, 1]"
  else
    match sort a with
    | [] => Failed "empty sample"
    | v :: s =>
        let h := q * INR (List.length s) in
        let lo := Z.to_nat (Zfloor h) in
        let below := nth lo (v :: s) v in
        let above := nth (S lo) (v :: s) (last s v) in
        Returned (below + (h - IZR (Zfloor h)) * (above - below))
    end.

(** A statistic that always raises. *)
Definition failing_stat : stat_fn unit :=
  fun _ _ _ => Failed "statistic failed".

(** A statistic that is undefined when the first two values of [x] are
    equal, as a correlation is on a constant sequence. *)
Definition constant_sensitive_stat : stat_fn unit :=
  fun x _ _ =>
    match x with
    | x0 :: x1 :: _ =>
        if Reqb x0 x1 then Failed "x is constant" else Returned (1 / 2, 1 / 20)
    | _ => Failed "two observations are needed"
    end.

(** The normal quantile at 0.975 and 0.995, and 0 (its value at 0.5)
    elsewhere. *)
Definition ppf_table (p : R) : R :=
  if Reqb p 0.975 then 1.96 else if Reqb p 0.995 then 2.576 else 0.

End Doubles.

(** ** The arithmetic of [corr] in double precision

    The model further down computes over the real numbers.  This module is
    the same function over IEEE 754 binary64, the arithmetic the program
    runs on: [+], [-], [*], [/], [abs], [==], [<] and [np.sqrt] are the
    operations of the processor, NaN and the infinities included, and
    [np.log], [np.exp] and [norm.ppf] are providers.  It keeps the state of
    the random generator and the exceptions, and writes no log. *)

Module F64.

Local Open Scope float_scope.

(** [np.asarray(x).ravel()]: a 1-D array of doubles. *)
Definition array : Type := list float.

Definition stat_fn (K : Type) : Type := array -> array -> K -> provided (float * float).

(** [float(k)] for a Python [int] [k] (exact below 2^53). *)
Definition of_int (k : Z) : float :=
  match k with
  | Z0 => 0
  | Zpos _ => PrimFloat.of_uint63 (Uint63.of_Z k)
  | Zneg p => - PrimFloat.of_uint63 (Uint63.of_Z (Zpos p))
  end.

(** A numerator of the standard error: a Python number ([.437] and [1])
    or a numpy scalar ([1 + r ** 2 / 2.] at the [numpy.float64] scipy
    returns). *)
Inductive number : Type :=
| PyNumber (v : float)
| NpFloat64 (v : float).

Section Binary64.

Variable G : Type.
Variable K : Type.

(** [scipy.stats.kendalltau], [spearmanr], [pearsonr]. *)
Variables kendall_tau_scipy spearman_rho_scipy pearson_r_scipy : stat_fn K.
(** [np.log], [np.exp], [scipy.stats.norm.ppf]. *)
Variables np_log np_exp norm_ppf : float -> float.
(** [np.random.choice(np.arange(n), replace=True, size=(b, n))]. *)
Variable random_choice : G -> nat -> nat -> list (list nat) * G.
(** [np.quantile(a, q)]. *)
Variable np_quantile : list float -> float -> provided float.

Definition M (A : Type) : Type := G -> outcome A * G.

Definition ret {A : Type} (a : A) : M A := fun g => (Ok a, g).

Definition raise {A : Type} (e : exn) : M A := fun g => (Raise e, g).

Definition bind {A B : Type} (m : M A) (f : A -> M B) : M B :=
  fun g =>
    match m g with
    | (Ok a, g1) => f a g1
    | (Raise e, g1) => (Raise e, g1)
    end.

Notation "x <- m ;; k" := (bind m (fun x => k))
  (at level 61, m at next level, right associativity).
Notation "' p <- m ;; k" := (bind m (fun v => match v with p => k end))
  (at level 61, p pattern, m at next level, right associativity).

Fixpoint mapM {A B : Type} (f : A -> M B) (l : list A) : M (list B) :=
  match l with
  | [] => ret []
  | a :: l' => b <- f a ;; bs <- mapM f l' ;; ret (b :: bs)
  end.

(** [d[k]] *)
Definition getitem {V : Type} (d : dict V) (k : string) : M V :=
  match dict_get d k with
  | Some v => ret v
  | None => raise (KeyError k)
  end.

(** [f(x, y, **kwargs)] where [f] may be [None]. *)
Definition call (f : option (stat_fn K)) (x y : array) (kwargs : K)
  : M (float * float) :=
  match f with
  | None => raise (TypeError "'NoneType' object is not callable")
  | Some f =>
      match f x y kwargs with
      | Returned r => ret r
      | Failed msg => raise (External msg)
      end
  end.

(** [a / k] for a Python [int] [k]: Python's division raises on zero,
    numpy's returns an infinity or NaN. *)
Definition div_by_int (a : number) (k : Z) : M float :=
  match a with
  | PyNumber v => if Z.eqb k 0 then raise ZeroDivisionError else ret (v / of_int k)
  | NpFloat64 v => ret (v / of_int k)
  end.

Definition choice (n b : nat) : M (list (list nat)) :=
  fun g => let (idx, g') := random_choice g n b in (Ok idx, g').

Definition quantile (a : list float) (q : float) : M float :=
  match np_quantile a q with
  | Returned v => ret v
  | Failed msg => raise (External msg)
  end.

(** [a[idx]] for a 1-D array [a] and a 2-D index array [idx]. *)
Definition fancy_index (a : array) (idx : list (list nat)) : M (list array) :=
  mapM (mapM (fun i => match nth_error a i with
                       | Some v => ret v
                       | None => raise IndexError
                       end)) idx.

(** [m[i]]: row [i] of a 2-D array. *)
Definition row (m : list array) (i : nat) : M array :=
  match nth_error m i with
  | Some r => ret r
  | None => raise IndexError
  end.

Definition corr_functions : dict (option (stat_fn K)) :=
  [("kendall_tau"%string, Some kendall_tau_scipy);
   ("spearman_rho"%string, Some spearman_rho_scipy);
   ("pearson_r"%string, Some pearson_r_scipy);
   ("customized"%string, None)].

Definition param_corr_thres : dict float :=
  [("kendall_tau"%string, 0.8);
   ("spearman_rho"%string, 0.95);
   ("pearson_r"%string, 1);
   ("customized"%string, 0)].

Definition se_numerator_func : dict (float -> number) :=
  [("kendall_tau"%string, fun r => PyNumber 0.437);
   ("spearman_rho"%string, fun r => NpFloat64 (1 + r * r / 2));
   ("pearson_r"%string, fun r => PyNumber 1)].

Definition se_denominator_diff : dict Z :=
  [("kendall_tau"%string, 4%Z);
   ("spearman_rho"%string, 3%Z);
   ("pearson_r"%string, 3%Z)].

Definition invalid_method_msg : string :=
  "method must be one of the following strings: kendall_tau, spearman_rho, pearson_r, customized".

Definition resolve_corr_func (method : string) (custom_corr_func : option (stat_fn K))
  : M (option (stat_fn K)) :=
  if String.eqb method "customized" && is_not_None custom_corr_func
  then ret custom_corr_func
  else if dict_mem corr_functions method
       then getitem corr_functions method
       else raise (KeyError invalid_method_msg).

(** The branch of the normal approximation. *)
Definition normal_ci (method : string) (corr_mean alpha : float) (sample_size : nat)
  : M (float * float) :=
  let z := np_log ((1 + corr_mean) / (1 - corr_mean)) / 2 in
  numerator <- getitem se_numerator_func method ;;
  diff <- getitem se_denominator_diff method ;;
  variance <- div_by_int (numerator corr_mean) (Z.of_nat sample_size - diff) ;;
  let se := PrimFloat.sqrt variance in
  let z_lower := z - norm_ppf (1 - alpha / 2) * se in
  let z_upper := z + norm_ppf (1 - alpha / 2) * se in
  let corr_lower := (np_exp (2 * z_lower) - 1) / (np_exp (2 * z_lower) + 1) in
  let corr_upper := (np_exp (2 * z_upper) - 1) / (np_exp (2 * z_upper) + 1) in
  ret (corr_lower, corr_upper).

(** The branch of the bootstrap. *)
Definition bootstrap_ci (corr_func : option (stat_fn K)) (x y : array) (kwargs : K)
    (alpha : float) (sample_size bootstrap_samples : nat) : M (float * float) :=
  new_idx <- choice sample_size bootstrap_samples ;;
  bootstrap_x <- fancy_index x new_idx ;;
  bootstrap_y <- fancy_index y new_idx ;;
  bootstrap_corrs <-
    mapM (fun i =>
            bx <- row bootstrap_x i ;;
            by_ <- row bootstrap_y i ;;
            '(c, _) <- call corr_func bx by_ kwargs ;;
            ret c)
         (seq 0 bootstrap_samples) ;;
  corr_lower <- quantile bootstrap_corrs (alpha / 2) ;;
  corr_upper <- quantile bootstrap_corrs (1 - alpha / 2) ;;
  ret (corr_lower, corr_upper).

Definition result : Type := (float * option float * option float * float)%type.

Definition corr (x y : array) (method : string) (skip_ci : bool) (alpha : float)
    (ci : option float) (bootstrap_samples : nat) (bootstrap : bool)
    (custom_corr_func : option (stat_fn K)) (kwargs : K) : M result :=
  corr_func <- resolve_corr_func method custom_corr_func ;;
  '(corr_mean, p_value) <- call corr_func x y kwargs ;;
  if skip_ci then ret (corr_mean, None, None, p_value)
  else if PrimFloat.eqb (PrimFloat.abs corr_mean) 1
  then ret (corr_mean, Some corr_mean, Some corr_mean, p_value)
  else
    let alpha := match ci with Some ci => 1 - ci | None => alpha end in
    let sample_size := List.length x in
    normal <- (if negb bootstrap
               then thres <- getitem param_corr_thres method ;;
                    ret (PrimFloat.ltb (PrimFloat.abs corr_mean) thres)
               else ret false) ;;
    '(corr_lower, corr_upper) <-
      (if normal
       then normal_ci method corr_mean alpha sample_size
       else bootstrap_ci corr_func x y kwargs alpha sample_size bootstrap_samples) ;;
    ret (corr_mean, Some corr_lower, Some corr_upper, p_value).

End Binary64.

(** *** Concrete providers in double precision *)

(** A provider known at the arguments listed, NaN elsewhere. *)
Fixpoint table (t : list (float * float)) (x : float) : float :=
  match t with
  | [] => nan
  | (a, v) :: t' => if PrimFloat.eqb x a then v else table t' x
  end.

(** A statistic that ignores the data. *)
Definition const_stat (c p : float) : stat_fn unit :=
  fun _ _ _ => Returned (c, p).


(** A generator that draws, in resample [i], index [i mod n] throughout. *)
Definition cycling_draw (g n b : nat) : list (list nat) * nat :=
  (map (fun i => repeat (Nat.modulo i n) n) (seq 0 b), S g).

Fixpoint insert_sorted (v : float) (l : list float) : list float :=
  match l with
  | [] => [v]
  | h :: t => if PrimFloat.leb v h then v :: l else h :: insert_sorted v t
  end.

Definition sort (l : list float) : list float := fold_right insert_sorted [] l.

Definition of_nat (n : nat) : float := of_int (Z.of_nat n).

(** The largest [i <= n] with [float(i) <= h]. *)
Fixpoint floor_upto (h : float) (n : nat) : nat :=
  match n with
  | O => O
  | S n' => if PrimFloat.leb (of_nat n) h then n else floor_upto h n'
  end.

(** numpy's quantile, method [linear]: the virtual index [(n - 1) * q] and
    the interpolation between the two order statistics around it. *)
Definition quantile_linear (a : list float) (q : float) : provided float :=
  if PrimFloat.leb 0 q && PrimFloat.leb q 1
  then
    match sort a with
    | [] => Failed "empty sample"
    | v :: s =>
        let h := of_nat (List.length s) * q in
        let i := floor_upto h (List.length s) in
        let t := h - of_nat i in
        let below := nth i (v :: s) v in
        let above := nth (S i) (v :: s) (last s v) in
        Returned (if PrimFloat.leb 0.5 t
                  then above - (above - below) * (1 - t)
                  else below + (above - below) * t)
    end
  else Failed "Quantiles must be in the range [0, 1]".

(** [np.log], [np.exp] and [norm.ppf] at the arguments of the runs shown
    at the end of this file: the values the C library and scipy return
    there. *)
Definition log_table : float -> float :=
  table [(0x1p+54, 0x1.2b708872320e2p+5);
         (3, 0x1.193ea7aad030bp+0)].

Definition exp_table : float -> float :=
  table [(0x1.19558ecdaa6b1p+5, 0x1.aa10f183b9f6ep+50);
         (0x1.3d8b8216b9b13p+5, 0x1.33a209671b3c2p+57);
         (0x1.193ea7aad030bp+0, 0x1.8000000000001p+1);
         (neg_infinity, 0);
         (infinity, infinity)].

Definition ppf_table : float -> float :=
  table [(0.975, 0x1.f5c0331eeff84p+0);
         (0.5, 0)].


End F64.

(** ** The model of [correlation.py] *)

Section Correlation.

(** State of numpy's global random generator. *)
Variable G : Type.
(** The extra keyword arguments [**kwargs]. *)
Variable K : Type.

(** [scipy.stats.kendalltau], [spearmanr], [pearsonr]. *)
Variables kendall_tau_scipy spearman_rho_scipy pearson_r_scipy : stat_fn K.
(** [scipy.stats.norm.ppf]. *)
Variable norm_ppf : R -> R.
(** [np.random.choice(np.arange(n), replace=True, size=(b, n))], from a
    generator state: the drawn index matrix and the next state. *)
Variable random_choice : G -> nat -> nat -> list (list nat) * G.
(** [np.quantile(a, q)]. *)
Variable np_quantile : list R -> R -> provided R.

(** External calls and table accesses, as [corr] performs them. *)
Inductive event : Type :=
| EvStat (x y : array) (kwargs : K)
| EvFisher (r : R)
| EvSeTable (method : string)
| EvPpf (p : R)
| EvChoice (n b : nat)
| EvQuantile (a : list R) (q : R).

(** A computation: from a generator state to an outcome, the next
    generator state and the events of this computation. *)
Definition M (A : Type) : Type := G -> outcome A * G * list event.

Definition ret {A : Type} (a : A) : M A := fun g => (Ok a, g, []).

Definition raise {A : Type} (e : exn) : M A := fun g => (Raise e, g, []).

Definition bind {A B : Type} (m : M A) (f : A -> M B) : M B :=
  fun g =>
    match m g with
    | (Ok a, g1, l1) =>
        match f a g1 with
        | (o, g2, l2) => (o, g2, l1 ++ l2)
        end
    | (Raise e, g1, l1) => (Raise e, g1, l1)
    end.

Definition emit (e : event) : M unit := fun g => (Ok tt, g, [e]).

Notation "x <- m ;; k" := (bind m (fun x => k))
  (at level 61, m at next level, right associativity).
Notation "' p <- m ;; k" := (bind m (fun v => match v with p => k end))
  (at level 61, p pattern, m at next level, right associativity).
Notation "m ;; k" := (bind m (fun _ => k))
  (at level 61, right associativity).

Fixpoint mapM {A B : Type} (f : A -> M B) (l : list A) : M (list B) :=
  match l with
  | [] => ret []
  | a :: l' => b <- f a ;; bs <- mapM f l' ;; ret (b :: bs)
  end.

(** [d[k]] *)
Definition getitem {V : Type} (d : dict V) (k : string) : M V :=
  match dict_get d k with
  | Some v => ret v
  | None => raise (KeyError k)
  end.

(** [f(x, y, **kwargs)] where [f] may be [None]. *)
Definition call (f : option (stat_fn K)) (x y : array) (kwargs : K) : M (R * R) :=
  match f with
  | None => raise (TypeError "'NoneType' object is not callable")
  | Some f =>
      emit (EvStat x y kwargs) ;;
      match f x y kwargs with
      | Returned r => ret r
      | Failed msg => raise (External msg)
      end
  end.

(** [a / b] between Python numbers, which raises on a zero divisor. *)
Definition py_div (a b : R) : M R :=
  if Reqb b 0 then raise ZeroDivisionError else ret (a / b).

(** [a / b] where [a] or [b] is a numpy scalar.  On a zero divisor numpy
    returns an infinity or NaN with a warning and the program goes on; the
    reals have neither, and the run of this model ends with [NotReal]. *)
Definition np_div (a b : R) : M R :=
  if Reqb b 0 then raise NotReal else ret (a / b).

(** [a / k] for a Python [int] [k]: the division is Python's or numpy's
    with the numerator. *)
Definition div_by_int (a : number) (k : Z) : M R :=
  match a with
  | PyNumber v => py_div v (IZR k)
  | NpFloat64 v => np_div v (IZR k)
  end.

(** [np.log(a)].  On a non-positive argument numpy returns NaN or an
    infinity with a warning; the run of this model ends with [NotReal]. *)
Definition np_log (a : R) : M R :=
  if Rltb 0 a then ret (ln a) else raise NotReal.

(** [np.sqrt(a)].  On a negative argument numpy returns NaN with a warning
    and the program goes on to return NaN bounds; the run of this model
    ends with [NotReal].  [F64.normal_ci] goes on as the program does. *)
Definition np_sqrt (a : R) : M R :=
  if Rltb a 0 then raise NotReal else ret (sqrt a).

(** [norm_scipy.ppf(p)] *)
Definition ppf (p : R) : M R := emit (EvPpf p) ;; ret (norm_ppf p).

(** [np.random.choice(np.arange(n), replace=True, size=(b, n))] *)
Definition choice (n b : nat) : M (list (list nat)) :=
  fun g => let (idx, g') := random_choice g n b in (Ok idx, g', [EvChoice n b]).

(** [np.quantile(a, q)] *)
Definition quantile (a : list R) (q : R) : M R :=
  emit (EvQuantile a q) ;;
  match np_quantile a q with
  | Returned v => ret v
  | Failed msg => raise (External msg)
  end.

(** [a[idx]] for a 1-D array [a] and a 2-D index array [idx]. *)
Definition fancy_index (a : array) (idx : list (list nat)) : M (list array) :=
  mapM (mapM (fun i => match nth_error a i with
                       | Some v => ret v
                       | None => raise IndexError
                       end)) idx.

(** [m[i]]: row [i] of a 2-D array. *)
Definition row (m : list array) (i : nat) : M array :=
  match nth_error m i with
  | Some r => ret r
  | None => raise IndexError
  end.

(** *** Module-level tables *)

Definition bootstrap_samples_default : nat := 5000.
Definition alpha_default : R := 0.05.

Definition corr_functions : dict (option (stat_fn K)) :=
  [("kendall_tau"%string, Some kendall_tau_scipy);
   ("spearman_rho"%string, Some spearman_rho_scipy);
   ("pearson_r"%string, Some pearson_r_scipy);
   ("customized"%string, None)].

Definition param_corr_thres : dict R :=
  [("kendall_tau"%string, 0.8);
   ("spearman_rho"%string, 0.95);
   ("pearson_r"%string, 1);
   ("customized"%string, 0)].

Definition se_numerator_func : dict (R -> number) :=
  [("kendall_tau"%string, fun r => PyNumber 0.437);
   ("spearman_rho"%string, fun r => NpFloat64 (1 + r ^ 2 / 2));
   ("pearson_r"%string, fun r => PyNumber 1)].

Definition se_denominator_diff : dict Z :=
  [("kendall_tau"%string, 4%Z);
   ("spearman_rho"%string, 3%Z);
   ("pearson_r"%string, 3%Z)].

Definition invalid_method_msg : string :=
  "method must be one of the following strings: kendall_tau, spearman_rho, pearson_r, customized".

(** *** [corr] *)

(** The first [if]/[else] of [corr]: which function computes the statistic. *)
Definition resolve_corr_func (method : string) (custom_corr_func : option (stat_fn K))
  : M (option (stat_fn K)) :=
  if String.eqb method "customized" && is_not_None custom_corr_func
  then ret custom_corr_func
  else if dict_mem corr_functions method
       then getitem corr_functions method
       else raise (KeyError invalid_method_msg).

(** The branch of the normal approximation. *)
Definition normal_ci (method : string) (corr_mean alpha : R) (sample_size : nat)
  : M (R * R) :=
  emit (EvFisher corr_mean) ;;
  ratio <- np_div (1 + corr_mean) (1 - corr_mean) ;;
  lg <- np_log ratio ;;
  let z := lg / 2 in
  emit (EvSeTable method) ;;
  numerator <- getitem se_numerator_func method ;;
  diff <- getitem se_denominator_diff method ;;
  variance <- div_by_int (numerator corr_mean) (Z.of_nat sample_size - diff) ;;
  se <- np_sqrt variance ;;
  q_lower <- ppf (1 - alpha / 2) ;;
  let z_lower := z - q_lower * se in
  q_upper <- ppf (1 - alpha / 2) ;;
  let z_upper := z + q_upper * se in
  let corr_lower := (exp (2 * z_lower) - 1) / (exp (2 * z_lower) + 1) in
  let corr_upper := (exp (2 * z_upper) - 1) / (exp (2 * z_upper) + 1) in
  ret (corr_lower, corr_upper).

(** The branch of the bootstrap. *)
Definition bootstrap_ci (corr_func : option (stat_fn K)) (x y : array) (kwargs : K)
    (alpha : R) (sample_size bootstrap_samples : nat) : M (R * R) :=
  new_idx <- choice sample_size bootstrap_samples ;;
  bootstrap_x <- fancy_index x new_idx ;;
  bootstrap_y <- fancy_index y new_idx ;;
  bootstrap_corrs <-
    mapM (fun i =>
            bx <- row bootstrap_x i ;;
            by_ <- row bootstrap_y i ;;
            '(c, _) <- call corr_func bx by_ kwargs ;;
            ret c)
         (seq 0 bootstrap_samples) ;;
  corr_lower <- quantile bootstrap_corrs (alpha / 2) ;;
  corr_upper <- quantile bootstrap_corrs (1 - alpha / 2) ;;
  ret (corr_lower, corr_upper).

(** The result tuple; [None] in the second and third place is Python's
    [None]. *)
Definition result : Type := (R * option R * option R * R)%type.

Definition corr (x y : array) (method : string) (skip_ci : bool) (alpha : R)
    (ci : option R) (bootstrap_samples : nat) (bootstrap : bool)
    (custom_corr_func : option (stat_fn K)) (kwargs : K) : M result :=
  corr_func <- resolve_corr_func method custom_corr_func ;;
  '(corr_mean, p_value) <- call corr_func x y kwargs ;;
  if skip_ci then ret (corr_mean, None, None, p_value)
  else if Reqb (Rabs corr_mean) 1
  then ret (corr_mean, Some corr_mean, Some corr_mean, p_value)
  else
    let alpha := match ci with Some ci => 1 - ci | None => alpha end in
    let sample_size := List.length x in
    normal <- (if negb bootstrap
               then thres <- getitem param_corr_thres method ;;
                    ret (Rltb (Rabs corr_mean) thres)
               else ret false) ;;
    '(corr_lower, corr_upper) <-
      (if normal
       then normal_ci method corr_mean alpha sample_size
       else bootstrap_ci corr_func x y kwargs alpha sample_size bootstrap_samples) ;;
    ret (corr_mean, Some corr_lower, Some corr_upper, p_value).

(** *** The vocabulary of the specification *)

(** The enumerated set of method selectors. *)
Definition method_names : list string :=
  ["kendall_tau"%string; "spearman_rho"%string; "pearson_r"%string;
   "customized"%string].

(** The three selectors bound to a built-in statistic. *)
Inductive builtin_method : Type := KendallTau | SpearmanRho | PearsonR.

Definition name_of (b : builtin_method) : string :=
  match b with
  | KendallTau => "kendall_tau"
  | SpearmanRho => "spearman_rho"
  | PearsonR => "pearson_r"
  end.

Definition builtin_stat (b : builtin_method) : stat_fn K :=
  match b with
  | KendallTau => kendall_tau_scipy
  | SpearmanRho => spearman_rho_scipy
  | PearsonR => pearson_r_scipy
  end.

(** The threshold of the normal approximation, per selector. *)
Definition spec_threshold (method : string) : R :=
  if String.eqb method "kendall_tau" then 0.8
  else if String.eqb method "spearman_rho" then 0.95
  else if String.eqb method "pearson_r" then 1
  else 0.

(** The table of the standard error. *)
Definition spec_se_numerator (b : builtin_method) (r : R) : R :=
  match b with
  | KendallTau => 0.437
  | SpearmanRho => 1 + r * r / 2
  | PearsonR => 1
  end.

Definition spec_se_offset (b : builtin_method) : nat :=
  match b with
  | KendallTau => 4
  | SpearmanRho => 3
  | PearsonR => 3
  end.

Definition spec_z (r : R) : R := 0.5 * ln ((1 + r) / (1 - r)).

Definition spec_se (b : builtin_method) (r : R) (n : nat) : R :=
  sqrt (spec_se_numerator b r / (INR n - INR (spec_se_offset b))).

Definition spec_bound (z : R) : R := (exp (2 * z) - 1) / (exp (2 * z) + 1).

(** The significance level [corr] works with. *)
Definition effective_alpha (alpha : R) (ci : option R) : R :=
  match ci with
  | Some c => 1 - c
  | None => alpha
  end.

(** Resampling the pairs [(x[i], y[i])] at the drawn indices. *)
Definition paired_resample (pairs : list (R * R)) (draw : list nat)
  : list (R * R) :=
  map (fun i => nth i pairs (0, 0)) draw.

(** The two sequences of a resample: the drawn pairs, taken apart. *)
Definition replicate_x (x y : array) (draw : list nat) : array :=
  map fst (paired_resample (combine x y) draw).

Definition replicate_y (x y : array) (draw : list nat) : array :=
  map snd (paired_resample (combine x y) draw).

(** Which branch a run took, read off its log. *)
Definition is_fisher (e : event) : bool :=
  match e with EvFisher _ => true | _ => false end.

Definition is_choice (e : event) : bool :=
  match e with EvChoice _ _ => true | _ => false end.

(** Events of the normal approximation only. *)
Definition is_normal_event (e : event) : bool :=
  match e with
  | EvFisher _ | EvSeTable _ | EvPpf _ => true
  | _ => false
  end.

Definition took_normal (l : list event) : bool := existsb is_fisher l.
Definition took_resampling (l : list event) : bool := existsb is_choice l.

(** The three parts of a run. *)
Definition outcome_of {A : Type} (t : outcome A * G * list event) : outcome A :=
  fst (fst t).
Definition state_of {A : Type} (t : outcome A * G * list event) : G :=
  snd (fst t).
Definition log_of {A : Type} (t : outcome A * G * list event) : list event :=
  snd t.

(** The result tuple around the two bounds of a branch. *)
Definition with_bounds (corr_mean p_value : R) (o : outcome (R * R))
  : outcome result :=
  match o with
  | Ok (lo, hi) => Ok (corr_mean, Some lo, Some hi, p_value)
  | Raise e => Raise e
  end.

(** Every event a computation logs satisfies [P], from any state. *)
Definition logs {A : Type} (P : event -> Prop) (m : M A) : Prop :=
  forall g, Forall P (log_of (m g)).

(** Every exception a computation ends with satisfies [Q]. *)
Definition raises {A : Type} (Q : exn -> Prop) (m : M A) : Prop :=
  forall g e, outcome_of (m g) = Raise e -> Q e.



(** Kinds of events, and how many of a kind a log has. *)
Definition is_stat (e : event) : bool :=
  match e with EvStat _ _ _ => true | _ => false end.

Definition is_quantile (e : event) : bool :=
  match e with EvQuantile _ _ => true | _ => false end.

Definition is_ppf (e : event) : bool :=
  match e with EvPpf _ => true | _ => false end.

Definition count (p : event -> bool) (l : list event) : nat :=
  List.length (filter p l).

(** A computation that leaves the generator as it found it. *)
Definition keeps_state {A : Type} (m : M A) : Prop :=
  forall g, state_of (m g) = g.

(** A computation that logs at most [n] events of kind [p]. *)
Definition at_most {A : Type} (p : event -> bool) (n : nat) (m : M A) : Prop :=
  forall g, (count p (log_of (m g)) <= n)%nat.

(** [a[draw]] for a 1-D index array [draw] within range. *)
Definition gather (a : array) (draw : list nat) : array :=
  map (fun i => nth i a 0) draw.

Definition in_range (a : array) (draw : list nat) : Prop :=
  Forall (fun i => (i < List.length a)%nat) draw.

(** A call of the statistic is on the full sample, or on [x] and [y] taken
    at one and the same list of indices, and carries the keyword arguments
    of the caller. *)
Definition sample_call (x y : array) (kwargs : K) (e : event) : Prop :=
  match e with
  | EvStat a b k =>
      k = kwargs /\
      ((a = x /\ b = y) \/
       exists draw, in_range x draw /\ in_range y draw /\
                    a = gather x draw /\ b = gather y draw)
  | _ => True
  end.


Implicit Types f : stat_fn K.

(** ** Running the monad *)

Lemma bind_ok {A B : Type} (m : M A) (f : A -> M B) g a g1 l1 o g2 l2 :
  m g = (Ok a, g1, l1) -> f a g1 = (o, g2, l2) ->
  bind m f g = (o, g2, l1 ++ l2).
Proof. intros Hm Hf. unfold bind. now rewrite Hm, Hf. Qed.

Lemma bind_raise {A B : Type} (m : M A) (f : A -> M B) g e g1 l1 :
  m g = (Raise e, g1, l1) -> bind m f g = (Raise e, g1, l1).
Proof. intros Hm. unfold bind. now rewrite Hm. Qed.

(** A step that neither draws nor logs can be skipped over. *)
Lemma bind_silent {A B : Type} (m : M A) (f : A -> M B) g a :
  m g = (Ok a, g, []) -> bind m f g = f a g.
Proof.
  intros Hm. unfold bind. rewrite Hm.
  destruct (f a g) as [[o g2] l2]. reflexivity.
Qed.

Lemma bind_step {A B : Type} (m : M A) (f : A -> M B) g a g1 l1 :
  m g = (Ok a, g1, l1) ->
  bind m f g =
  (outcome_of (f a g1), state_of (f a g1), l1 ++ log_of (f a g1)).
Proof.
  intros Hm. unfold bind. rewrite Hm.
  destruct (f a g1) as [[o g2] l2]. reflexivity.
Qed.

(** A step that logs one event and leaves the state alone. *)
Lemma bind_logged {A B : Type} (m : M A) (f : A -> M B) g a e o g2 l2 :
  m g = (Ok a, g, [e]) -> f a g = (o, g2, l2) ->
  bind m f g = (o, g2, e :: l2).
Proof. intros Hm Hf. unfold bind. now rewrite Hm, Hf. Qed.

Lemma bind_congr {A B : Type} (m m' : M A) (f f' : A -> M B) g :
  m g = m' g -> (forall a g1, f a g1 = f' a g1) -> bind m f g = bind m' f' g.
Proof.
  intros Hm Hf. unfold bind. rewrite Hm.
  destruct (m' g) as [[[a | e] g1] l1]; [rewrite Hf | ]; reflexivity.
Qed.

Lemma bind_emit {B : Type} (e : event) (f : unit -> M B) g :
  bind (emit e) f g =
  (outcome_of (f tt g), state_of (f tt g), e :: log_of (f tt g)).
Proof.
  unfold bind, emit. destruct (f tt g) as [[o g2] l2]. reflexivity.
Qed.

Lemma Rltb_true a b : a < b -> Rltb a b = true.
Proof. intros H. unfold Rltb. destruct (Rlt_dec a b); [reflexivity | contradiction]. Qed.

Lemma Rltb_false a b : ~ a < b -> Rltb a b = false.
Proof. intros H. unfold Rltb. destruct (Rlt_dec a b); [contradiction | reflexivity]. Qed.

Lemma Rltb_iff a b : Rltb a b = true <-> a < b.
Proof. unfold Rltb. destruct (Rlt_dec a b); split; intros; (easy || discriminate). Qed.

Lemma Reqb_true a b : a = b -> Reqb a b = true.
Proof. intros H. unfold Reqb. destruct (Req_dec_T a b); [reflexivity | contradiction]. Qed.

Lemma Reqb_false a b : a <> b -> Reqb a b = false.
Proof. intros H. unfold Reqb. destruct (Req_dec_T a b); [contradiction | reflexivity]. Qed.

Lemma Reqb_iff a b : Reqb a b = true <-> a = b.
Proof. unfold Reqb. destruct (Req_dec_T a b); split; intros; (easy || discriminate). Qed.

(** ** Resolving the statistic *)

Lemma dict_mem_corr_functions method :
  dict_mem corr_functions method = true <-> In method method_names.
Proof.
  unfold dict_mem, corr_functions, method_names. cbn [dict_get In].
  destruct (String.eqb_spec method "kendall_tau") as [-> | ?]; [intuition | ].
  destruct (String.eqb_spec method "spearman_rho") as [-> | ?]; [intuition | ].
  destruct (String.eqb_spec method "pearson_r") as [-> | ?]; [intuition | ].
  destruct (String.eqb_spec method "customized") as [-> | ?]; [intuition | ].
  split; [discriminate | ]. intros H. repeat (destruct H as [H | H]; [congruence | ]).
  contradiction.
Qed.

(** [resolve_corr_func] neither draws nor logs. *)
Lemma resolve_corr_func_silent method custom g :
  resolve_corr_func method custom g =
  (outcome_of (resolve_corr_func method custom g), g, []).
Proof.
  unfold resolve_corr_func.
  destruct (String.eqb method "customized" && is_not_None custom); [reflexivity | ].
  destruct (dict_mem corr_functions method); [ | reflexivity].
  unfold getitem. destruct (dict_get corr_functions method); reflexivity.
Qed.

(** The cases in which a statistic is resolved. *)
Lemma resolve_corr_func_cases method custom g f :
  outcome_of (resolve_corr_func method custom g) = Ok (Some f) ->
  (method = "customized"%string /\ custom = Some f) \/
  (exists b, method = name_of b /\ f = builtin_stat b).
Proof.
  unfold resolve_corr_func.
  destruct (String.eqb_spec method "customized") as [-> | Hc]; cbn [andb].
  - destruct custom as [h | ]; cbn.
    + intros [= ->]. now left.
    + discriminate.
  - unfold dict_mem, getitem, corr_functions. cbn [dict_get].
    destruct (String.eqb_spec method "kendall_tau") as [-> | ?].
    { cbn. intros [= <-]. right. now exists KendallTau. }
    destruct (String.eqb_spec method "spearman_rho") as [-> | ?].
    { cbn. intros [= <-]. right. now exists SpearmanRho. }
    destruct (String.eqb_spec method "pearson_r") as [-> | ?].
    { cbn. intros [= <-]. right. now exists PearsonR. }
    destruct (String.eqb_spec method "customized") as [-> | ?]; [congruence | ].
    cbn. discriminate.
Qed.

Lemma param_corr_thres_spec method :
  In method method_names ->
  dict_get param_corr_thres method = Some (spec_threshold method).
Proof.
  unfold method_names, spec_threshold. cbn [In].
  intros [<- | [<- | [<- | [<- | []]]]]; reflexivity.
Qed.

Lemma resolved_in_names method custom g cf :
  outcome_of (resolve_corr_func method custom g) = Ok cf ->
  In method method_names.
Proof.
  unfold resolve_corr_func.
  destruct (String.eqb_spec method "customized") as [-> | Hc]; cbn [andb].
  - intros _. unfold method_names. cbn. tauto.
  - destruct (dict_mem corr_functions method) eqn:E.
    + intros _. now apply dict_mem_corr_functions.
    + cbn. discriminate.
Qed.

(** ** Events of a computation *)

Lemma logs_ret {A : Type} P (a : A) : logs P (ret a).
Proof. intros g. constructor. Qed.

Lemma logs_raise {A : Type} P e : logs P (@raise A e).
Proof. intros g. constructor. Qed.

Lemma logs_emit (P : event -> Prop) e : P e -> logs P (emit e).
Proof. intros H g. cbn. now constructor. Qed.

Lemma logs_bind {A B : Type} P (m : M A) (f : A -> M B) :
  logs P m -> (forall a, logs P (f a)) -> logs P (bind m f).
Proof.
  intros Hm Hf g. unfold bind. specialize (Hm g).
  destruct (m g) as [[[a | e] g1] l1]; cbn in *; [ | assumption].
  specialize (Hf a g1). destruct (f a g1) as [[o g2] l2]; cbn in *.
  apply Forall_app. now split.
Qed.

Lemma logs_mapM {A B : Type} P (f : A -> M B) (l : list A) :
  (forall a, logs P (f a)) -> logs P (mapM f l).
Proof.
  intros Hf. induction l as [ | a l IH]; cbn [mapM].
  - apply logs_ret.
  - apply logs_bind; [apply Hf | intros b].
    apply logs_bind; [apply IH | intros bs]. apply logs_ret.
Qed.

Lemma logs_getitem {V : Type} P (d : dict V) k : logs P (getitem d k).
Proof. unfold getitem. destruct (dict_get d k); [apply logs_ret | apply logs_raise]. Qed.

Lemma logs_py_div P a b : logs P (py_div a b).
Proof. unfold py_div. destruct (Reqb b 0); [apply logs_raise | apply logs_ret]. Qed.

Lemma logs_np_div P a b : logs P (np_div a b).
Proof. unfold np_div. destruct (Reqb b 0); [apply logs_raise | apply logs_ret]. Qed.

Lemma logs_div_by_int P a k : logs P (div_by_int a k).
Proof. destruct a; [apply logs_py_div | apply logs_np_div]. Qed.

Lemma logs_np_log P a : logs P (np_log a).
Proof. unfold np_log. destruct (Rltb 0 a); [apply logs_ret | apply logs_raise]. Qed.

Lemma logs_np_sqrt P a : logs P (np_sqrt a).
Proof. unfold np_sqrt. destruct (Rltb a 0); [apply logs_raise | apply logs_ret]. Qed.

Lemma logs_row P m i : logs P (row m i).
Proof. unfold row. destruct (nth_error m i); [apply logs_ret | apply logs_raise]. Qed.

Lemma logs_fancy_index P a idx : logs P (fancy_index a idx).
Proof.
  unfold fancy_index. apply logs_mapM. intros r. apply logs_mapM. intros i.
  destruct (nth_error a i); [apply logs_ret | apply logs_raise].
Qed.

Lemma logs_call (P : event -> Prop) cf x y kwargs :
  P (EvStat x y kwargs) -> logs P (call cf x y kwargs).
Proof.
  intros H. unfold call. destruct cf as [f | ]; [ | apply logs_raise].
  apply logs_bind; [now apply logs_emit | intros _].
  destruct (f x y kwargs); [apply logs_ret | apply logs_raise].
Qed.

Lemma logs_ppf (P : event -> Prop) p : P (EvPpf p) -> logs P (ppf p).
Proof.
  intros H. unfold ppf. apply logs_bind; [now apply logs_emit | intros _].
  apply logs_ret.
Qed.

Lemma logs_choice (P : event -> Prop) n b : P (EvChoice n b) -> logs P (choice n b).
Proof.
  intros H g. unfold choice. destruct (random_choice g n b). cbn. now constructor.
Qed.

Lemma logs_quantile (P : event -> Prop) a q :
  P (EvQuantile a q) -> logs P (quantile a q).
Proof.
  intros H. unfold quantile. apply logs_bind; [now apply logs_emit | intros _].
  destruct (np_quantile a q); [apply logs_ret | apply logs_raise].
Qed.

(** The normal approximation logs events of its own kind only. *)
Lemma logs_normal_ci method corr_mean alpha n :
  logs (fun e => is_normal_event e = true) (normal_ci method corr_mean alpha n).
Proof.
  unfold normal_ci.
  repeat first
    [ apply logs_ret
    | apply logs_emit; reflexivity
    | apply logs_ppf; reflexivity
    | apply logs_getitem | apply logs_np_div | apply logs_div_by_int
    | apply logs_np_log | apply logs_np_sqrt
    | apply logs_bind; [ | intro ] ].
Qed.

(** The bootstrap logs none of them. *)
Lemma logs_bootstrap_ci cf x y kwargs alpha n b :
  logs (fun e => is_normal_event e = false) (bootstrap_ci cf x y kwargs alpha n b).
Proof.
  unfold bootstrap_ci.
  apply logs_bind; [apply logs_choice; reflexivity | intros idx].
  apply logs_bind; [apply logs_fancy_index | intros bx].
  apply logs_bind; [apply logs_fancy_index | intros by_].
  apply logs_bind.
  { apply logs_mapM. intros i.
    apply logs_bind; [apply logs_row | intros rx].
    apply logs_bind; [apply logs_row | intros ry].
    apply logs_bind; [apply logs_call; reflexivity | intros [c p]].
    apply logs_ret. }
  intros cs.
  apply logs_bind; [apply logs_quantile; reflexivity | intros lo].
  apply logs_bind; [apply logs_quantile; reflexivity | intros hi].
  apply logs_ret.
Qed.

(** The normal approximation does not draw. *)
Lemma logs_no_choice_normal_ci method corr_mean alpha n :
  logs (fun e => is_choice e = false) (normal_ci method corr_mean alpha n).
Proof.
  intros g. eapply Forall_impl; [ | apply logs_normal_ci].
  intros [ | | | | | ]; cbn; congruence.
Qed.

Lemma logs_no_fisher_bootstrap_ci cf x y kwargs alpha n b :
  logs (fun e => is_fisher e = false) (bootstrap_ci cf x y kwargs alpha n b).
Proof.
  intros g. eapply Forall_impl; [ | apply logs_bootstrap_ci].
  intros [ | | | | | ]; cbn; congruence.
Qed.

Lemma existsb_false_of_Forall {A : Type} (p : A -> bool) (l : list A) :
  Forall (fun a => p a = false) l -> existsb p l = false.
Proof.
  induction 1 as [ | a l Ha _ IH]; cbn; [reflexivity | now rewrite Ha, IH].
Qed.

(** ** The shape of a run of [corr] *)

Lemma call_returned f x y kwargs g r :
  f x y kwargs = Returned r ->
  call (Some f) x y kwargs g = (Ok r, g, [EvStat x y kwargs]).
Proof. intros Hf. unfold call, bind, emit. rewrite Hf. reflexivity. Qed.

Lemma call_failed f x y kwargs g msg :
  f x y kwargs = Failed msg ->
  call (Some f) x y kwargs g = (Raise (External msg), g, [EvStat x y kwargs]).
Proof. intros Hf. unfold call, bind, emit. rewrite Hf. reflexivity. Qed.

Lemma bind_with_bounds (m : M (R * R)) c p g :
  bind m (fun v => let (lo, hi) := v in ret (c, Some lo, Some hi, p)) g =
  (with_bounds c p (outcome_of (m g)), state_of (m g), log_of (m g)).
Proof.
  unfold bind. destruct (m g) as [[[[lo hi] | e] g1] l1]; cbn;
    rewrite ?app_nil_r; reflexivity.
Qed.

(** The choice between the two branches. *)
Lemma branch_run method thr bootstrap c p (nb bb : M (R * R)) g :
  dict_get param_corr_thres method = Some thr ->
  bind (if negb bootstrap
        then bind (getitem param_corr_thres method)
                  (fun thres => ret (Rltb (Rabs c) thres))
        else ret false)
       (fun normal =>
          bind (if normal then nb else bb)
               (fun v => let (lo, hi) := v in ret (c, Some lo, Some hi, p))) g =
  let t := (if negb bootstrap && Rltb (Rabs c) thr then nb else bb) g in
  (with_bounds c p (outcome_of t), state_of t, log_of t).
Proof.
  intros Hthr. destruct bootstrap; cbn [negb andb].
  - rewrite bind_silent with (a := false) by reflexivity.
    apply bind_with_bounds.
  - unfold getitem. rewrite Hthr.
    rewrite bind_silent with (a := Rltb (Rabs c) thr) by reflexivity.
    destruct (Rltb (Rabs c) thr); apply bind_with_bounds.
Qed.

(** Once the statistic is resolved and has returned, a run of [corr] is
    the call of the statistic followed by at most one of the two branches. *)
Lemma corr_run x y method skip_ci alpha ci b bootstrap custom kwargs g f c p :
  outcome_of (resolve_corr_func method custom g) = Ok (Some f) ->
  f x y kwargs = Returned (c, p) ->
  corr x y method skip_ci alpha ci b bootstrap custom kwargs g =
  if skip_ci then (Ok (c, None, None, p), g, [EvStat x y kwargs])
  else if Reqb (Rabs c) 1 then (Ok (c, Some c, Some c, p), g, [EvStat x y kwargs])
  else
    let t :=
      (if negb bootstrap && Rltb (Rabs c) (spec_threshold method)
       then normal_ci method c (effective_alpha alpha ci) (List.length x)
       else bootstrap_ci (Some f) x y kwargs (effective_alpha alpha ci)
              (List.length x) b) g in
    (with_bounds c p (outcome_of t), state_of t, EvStat x y kwargs :: log_of t).
Proof.
  intros Hres Hf.
  pose proof (resolved_in_names _ _ _ _ Hres) as Hin.
  pose proof (param_corr_thres_spec _ Hin) as Hthr.
  unfold corr.
  rewrite (bind_silent _ _ g (Some f))
    by (rewrite resolve_corr_func_silent, Hres; reflexivity).
  cbv beta. rewrite (bind_step _ _ g (c, p) g [EvStat x y kwargs])
    by (now apply call_returned).
  cbv beta iota.
  destruct skip_ci; [reflexivity | ].
  destruct (Reqb (Rabs c) 1); [reflexivity | ].
  cbn [app]. cbv zeta.
  fold (effective_alpha alpha ci).
  rewrite (branch_run _ _ _ _ _ _ _ _ Hthr). reflexivity.
Qed.

(** ** The transform and its inverse *)

Lemma Rabs_lt_1 c : Rabs c < 1 -> -1 < c < 1.
Proof. intros H. apply Rabs_def2 in H. lra. Qed.

Lemma fisher_ratio_pos c : Rabs c < 1 -> 0 < (1 + c) / (1 - c).
Proof.
  intros H. apply Rabs_lt_1 in H. apply Rdiv_lt_0_compat; lra.
Qed.





Lemma spec_threshold_le_1 method : spec_threshold method <= 1.
Proof.
  unfold spec_threshold.
  destruct (String.eqb method "kendall_tau"); [lra | ].
  destruct (String.eqb method "spearman_rho"); [lra | ].
  destruct (String.eqb method "pearson_r"); lra.
Qed.

Lemma spec_se_numerator_pos b r : 0 < spec_se_numerator b r.
Proof. destruct b; cbn; nra. Qed.

(** ** The tables of the standard error *)

Lemma se_numerator_func_spec b :
  exists h, dict_get se_numerator_func (name_of b) = Some h /\
            (forall r, value_of (h r) = spec_se_numerator b r) /\
            (b <> SpearmanRho -> forall r, h r = PyNumber (spec_se_numerator b r)).
Proof.
  destruct b;
    (eexists; split; [reflexivity | split; [intros r; cbn; lra | ]]);
    intros Hb r; try congruence; cbn; f_equal; lra.
Qed.

Lemma div_by_int_run (a : number) (k : Z) g :
  IZR k <> 0 -> div_by_int a k g = (Ok (value_of a / IZR k), g, []).
Proof.
  intros Hk. destruct a; cbn [div_by_int value_of]; unfold py_div, np_div;
    rewrite Reqb_false by assumption; reflexivity.
Qed.

Lemma se_denominator_diff_spec b :
  dict_get se_denominator_diff (name_of b) = Some (Z.of_nat (spec_se_offset b)).
Proof. destruct b; reflexivity. Qed.

Lemma builtin_in_names b : In (name_of b) method_names.
Proof. destruct b; cbn; tauto. Qed.

Lemma customized_not_builtin b : name_of b <> "customized"%string.
Proof. destruct b; discriminate. Qed.

(** A selector with a positive threshold is a built-in one. *)
Lemma positive_threshold_builtin method :
  0 < spec_threshold method -> exists b, method = name_of b.
Proof.
  unfold spec_threshold.
  destruct (String.eqb_spec method "kendall_tau") as [-> | ?];
    [now exists KendallTau | ].
  destruct (String.eqb_spec method "spearman_rho") as [-> | ?];
    [now exists SpearmanRho | ].
  destruct (String.eqb_spec method "pearson_r") as [-> | ?];
    [now exists PearsonR | ].
  lra.
Qed.

(** ** The branch of the normal approximation *)

Lemma normal_ci_ok b c alpha n g :
  Rabs c < 1 -> (spec_se_offset b < n)%nat ->
  normal_ci (name_of b) c alpha n g =
  (Ok (spec_bound (spec_z c - norm_ppf (1 - alpha / 2) * spec_se b c n),
       spec_bound (spec_z c + norm_ppf (1 - alpha / 2) * spec_se b c n)),
   g,
   [EvFisher c; EvSeTable (name_of b); EvPpf (1 - alpha / 2);
    EvPpf (1 - alpha / 2)]).
Proof.
  intros Hc Hn.
  pose proof (fisher_ratio_pos c Hc) as Hratio.
  pose proof (Rabs_lt_1 c Hc) as Hc'.
  destruct (se_numerator_func_spec b) as (h & Hh & Hnum & _).
  pose proof (se_denominator_diff_spec b) as Hd.
  pose proof (spec_se_numerator_pos b c) as Hpos.
  assert (Hden : IZR (Z.of_nat n - Z.of_nat (spec_se_offset b)) =
                 INR n - INR (spec_se_offset b)).
  { rewrite minus_IZR, <- !INR_IZR_INZ. reflexivity. }
  assert (Hden_pos : 0 < INR n - INR (spec_se_offset b)).
  { apply lt_INR in Hn. lra. }
  assert (Hppf : forall q, ppf q g = (Ok (norm_ppf q), g, [EvPpf q]))
    by reflexivity.
  unfold normal_ci.
  eapply bind_logged; [reflexivity | ].
  rewrite bind_silent with (a := (1 + c) / (1 - c))
    by (unfold np_div; rewrite Reqb_false by lra; reflexivity).
  rewrite bind_silent with (a := ln ((1 + c) / (1 - c)))
    by (unfold np_log; rewrite Rltb_true by assumption; reflexivity).
  eapply bind_logged; [reflexivity | ].
  rewrite bind_silent with (a := h) by (unfold getitem; rewrite Hh; reflexivity).
  rewrite bind_silent with (a := Z.of_nat (spec_se_offset b))
    by (unfold getitem; rewrite Hd; reflexivity).
  rewrite bind_silent
    with (a := spec_se_numerator b c / (INR n - INR (spec_se_offset b)))
    by (rewrite div_by_int_run, Hden, Hnum by (rewrite Hden; lra); reflexivity).
  rewrite bind_silent with (a := spec_se b c n).
  2:{ unfold np_sqrt. rewrite Rltb_false; [reflexivity | ].
      apply Rle_not_lt, Rlt_le. now apply Rdiv_lt_0_compat. }
  eapply bind_logged; [apply Hppf | ].
  eapply bind_logged; [apply Hppf | ].
  replace (ln ((1 + c) / (1 - c)) / 2) with (spec_z c) by (unfold spec_z; lra).
  reflexivity.
Qed.

(** Every [EvFisher] of the normal approximation is at the coefficient. *)
Lemma logs_fisher_normal_ci method c alpha n :
  logs (fun e => match e with EvFisher r => r = c | _ => True end)
       (normal_ci method c alpha n).
Proof.
  unfold normal_ci.
  repeat first
    [ apply logs_ret
    | apply logs_emit; exact I
    | apply logs_emit; reflexivity
    | apply logs_ppf; exact I
    | apply logs_getitem | apply logs_np_div | apply logs_div_by_int
    | apply logs_np_log | apply logs_np_sqrt
    | apply logs_bind; [ | intro ] ].
Qed.

Lemma took_normal_normal_ci method c alpha n g :
  took_normal (log_of (normal_ci method c alpha n g)) = true.
Proof. unfold normal_ci. rewrite bind_emit. reflexivity. Qed.

Lemma took_resampling_bootstrap_ci cf x y kwargs alpha n b g :
  took_resampling (log_of (bootstrap_ci cf x y kwargs alpha n b g)) = true.
Proof.
  unfold bootstrap_ci.
  destruct (random_choice g n b) as [idx g1] eqn:E.
  rewrite (bind_step _ _ g idx g1 [EvChoice n b])
    by (unfold choice; rewrite E; reflexivity).
  reflexivity.
Qed.

(** ** Exceptions of a computation *)

Lemma raises_ret {A : Type} Q (a : A) : raises Q (ret a).
Proof. intros g e. cbn. discriminate. Qed.

Lemma raises_raise {A : Type} (Q : exn -> Prop) e : Q e -> raises Q (@raise A e).
Proof. intros H g e'. cbn. now intros [= <-]. Qed.

Lemma raises_emit Q e : raises Q (emit e).
Proof. intros g e'. cbn. discriminate. Qed.

Lemma raises_bind {A B : Type} Q (m : M A) (f : A -> M B) :
  raises Q m -> (forall a, raises Q (f a)) -> raises Q (bind m f).
Proof.
  intros Hm Hf g e. unfold bind. specialize (Hm g).
  destruct (m g) as [[[a | e1] g1] l1]; cbn in *.
  - specialize (Hf a g1). destruct (f a g1) as [[o g2] l2]; cbn in *. apply Hf.
  - intros [= <-]. now apply Hm.
Qed.

Lemma raises_mapM {A B : Type} Q (f : A -> M B) (l : list A) :
  (forall a, raises Q (f a)) -> raises Q (mapM f l).
Proof.
  intros Hf. induction l as [ | a l IH]; cbn [mapM].
  - apply raises_ret.
  - apply raises_bind; [apply Hf | intros b].
    apply raises_bind; [apply IH | intros bs]. apply raises_ret.
Qed.

Lemma raises_getitem {V : Type} (Q : exn -> Prop) (d : dict V) k :
  Q (KeyError k) -> raises Q (getitem d k).
Proof.
  intros H. unfold getitem.
  destruct (dict_get d k); [apply raises_ret | now apply raises_raise].
Qed.

Lemma raises_py_div (Q : exn -> Prop) a b :
  Q ZeroDivisionError -> raises Q (py_div a b).
Proof.
  intros H. unfold py_div.
  destruct (Reqb b 0); [now apply raises_raise | apply raises_ret].
Qed.

Lemma raises_np_div (Q : exn -> Prop) a b :
  Q NotReal -> raises Q (np_div a b).
Proof.
  intros H. unfold np_div.
  destruct (Reqb b 0); [now apply raises_raise | apply raises_ret].
Qed.

Lemma raises_div_by_int (Q : exn -> Prop) a k :
  Q ZeroDivisionError -> Q NotReal -> raises Q (div_by_int a k).
Proof.
  intros Hz Hn. destruct a; [now apply raises_py_div | now apply raises_np_div].
Qed.

Lemma raises_np_log (Q : exn -> Prop) a :
  Q NotReal -> raises Q (np_log a).
Proof.
  intros H. unfold np_log.
  destruct (Rltb 0 a); [apply raises_ret | now apply raises_raise].
Qed.

Lemma raises_np_sqrt (Q : exn -> Prop) a :
  Q NotReal -> raises Q (np_sqrt a).
Proof.
  intros H. unfold np_sqrt.
  destruct (Rltb a 0); [now apply raises_raise | apply raises_ret].
Qed.

Lemma raises_row (Q : exn -> Prop) m i : Q IndexError -> raises Q (row m i).
Proof.
  intros H. unfold row.
  destruct (nth_error m i); [apply raises_ret | now apply raises_raise].
Qed.

Lemma raises_fancy_index (Q : exn -> Prop) a idx :
  Q IndexError -> raises Q (fancy_index a idx).
Proof.
  intros H. unfold fancy_index. apply raises_mapM. intros r.
  apply raises_mapM. intros i.
  destruct (nth_error a i); [apply raises_ret | now apply raises_raise].
Qed.

Lemma raises_call (Q : exn -> Prop) f x y kwargs :
  (forall msg, Q (External msg)) -> raises Q (call (Some f) x y kwargs).
Proof.
  intros H. unfold call. apply raises_bind; [apply raises_emit | intros _].
  destruct (f x y kwargs); [apply raises_ret | apply raises_raise, H].
Qed.

Lemma raises_ppf Q p : raises Q (ppf p).
Proof.
  unfold ppf. apply raises_bind; [apply raises_emit | intros _]. apply raises_ret.
Qed.

Lemma raises_choice Q n b : raises Q (choice n b).
Proof.
  intros g e. unfold choice. destruct (random_choice g n b). cbn. discriminate.
Qed.

Lemma raises_quantile (Q : exn -> Prop) a q :
  (forall msg, Q (External msg)) -> raises Q (quantile a q).
Proof.
  intros H. unfold quantile. apply raises_bind; [apply raises_emit | intros _].
  destruct (np_quantile a q); [apply raises_ret | apply raises_raise, H].
Qed.

(** What the normal approximation can end with. *)
Lemma raises_normal_ci (Q : exn -> Prop) method c alpha n :
  Q (KeyError method) -> Q ZeroDivisionError -> Q NotReal ->
  raises Q (normal_ci method c alpha n).
Proof.
  intros Hk Hz Hf. unfold normal_ci.
  repeat first
    [ apply raises_ret | apply raises_emit | apply raises_ppf
    | apply raises_getitem; assumption
    | apply raises_np_div; assumption
    | apply raises_div_by_int; assumption
    | apply raises_np_log; assumption
    | apply raises_np_sqrt; assumption
    | apply raises_bind; [ | intro ] ].
Qed.

(** What the bootstrap can end with. *)
Lemma raises_bootstrap_ci (Q : exn -> Prop) f x y kwargs alpha n b :
  Q IndexError -> (forall msg, Q (External msg)) ->
  raises Q (bootstrap_ci (Some f) x y kwargs alpha n b).
Proof.
  intros Hi He. unfold bootstrap_ci.
  apply raises_bind; [apply raises_choice | intros idx].
  apply raises_bind; [now apply raises_fancy_index | intros bx].
  apply raises_bind; [now apply raises_fancy_index | intros by_].
  apply raises_bind.
  { apply raises_mapM. intros i.
    apply raises_bind; [now apply raises_row | intros rx].
    apply raises_bind; [now apply raises_row | intros ry].
    apply raises_bind; [now apply raises_call | intros [c p]].
    apply raises_ret. }
  intros cs.
  apply raises_bind; [now apply raises_quantile | intros lo].
  apply raises_bind; [now apply raises_quantile | intros hi].
  apply raises_ret.
Qed.

(** ** Runs that end before or at the first call of the statistic *)

Lemma corr_unresolved x y method skip_ci alpha ci b bootstrap custom kwargs g e :
  outcome_of (resolve_corr_func method custom g) = Raise e ->
  corr x y method skip_ci alpha ci b bootstrap custom kwargs g = (Raise e, g, []).
Proof.
  intros H. unfold corr. apply bind_raise.
  rewrite resolve_corr_func_silent, H. reflexivity.
Qed.

Lemma corr_not_callable x y method skip_ci alpha ci b bootstrap custom kwargs g :
  outcome_of (resolve_corr_func method custom g) = Ok None ->
  corr x y method skip_ci alpha ci b bootstrap custom kwargs g =
  (Raise (TypeError "'NoneType' object is not callable"), g, []).
Proof.
  intros H. unfold corr.
  rewrite (bind_silent _ _ g None)
    by (rewrite resolve_corr_func_silent, H; reflexivity).
  reflexivity.
Qed.

Lemma corr_stat_failed x y method skip_ci alpha ci b bootstrap custom kwargs g
    f msg :
  outcome_of (resolve_corr_func method custom g) = Ok (Some f) ->
  f x y kwargs = Failed msg ->
  corr x y method skip_ci alpha ci b bootstrap custom kwargs g =
  (Raise (External msg), g, [EvStat x y kwargs]).
Proof.
  intros H Hf. unfold corr.
  rewrite (bind_silent _ _ g (Some f))
    by (rewrite resolve_corr_func_silent, H; reflexivity).
  cbv beta. apply bind_raise. now apply call_failed.
Qed.

(** The selectors outside the enumerated set are the ones that do not
    resolve. *)
Lemma resolve_corr_func_invalid method custom g :
  ~ In method method_names ->
  outcome_of (resolve_corr_func method custom g) =
  Raise (KeyError invalid_method_msg).
Proof.
  intros Hn. unfold resolve_corr_func.
  destruct (String.eqb_spec method "customized") as [-> | Hc].
  - exfalso. apply Hn. cbn. tauto.
  - cbn [andb]. destruct (dict_mem corr_functions method) eqn:E.
    + exfalso. now apply Hn, dict_mem_corr_functions.
    + reflexivity.
Qed.

Lemma resolve_corr_func_valid method custom g :
  In method method_names ->
  exists cf, outcome_of (resolve_corr_func method custom g) = Ok cf.
Proof.
  unfold method_names. cbn [In].
  intros [<- | [<- | [<- | [<- | []]]]]; try (eexists; reflexivity).
  destruct custom; eexists; reflexivity.
Qed.

(** ** The branch of the bootstrap *)

Lemma mapM_silent {A B : Type} (f : A -> M B) (h : A -> B) (l : list A) g :
  Forall (fun a => f a g = (Ok (h a), g, [])) l ->
  mapM f l g = (Ok (map h l), g, []).
Proof.
  induction 1 as [ | a l Ha _ IH]; cbn [mapM map]; [reflexivity | ].
  rewrite (bind_silent _ _ g (h a)) by assumption.
  rewrite (bind_silent _ _ g (map h l)) by assumption.
  reflexivity.
Qed.

Lemma fancy_index_ok (a : array) (idx : list (list nat)) g :
  Forall (Forall (fun i => (i < List.length a)%nat)) idx ->
  fancy_index a idx g = (Ok (map (map (fun i => nth i a 0)) idx), g, []).
Proof.
  intros H. unfold fancy_index. apply mapM_silent.
  eapply Forall_impl; [ | exact H]. intros draw Hdraw. cbv beta.
  apply mapM_silent. eapply Forall_impl; [ | exact Hdraw]. intros i Hi. cbv beta in *.
  destruct (nth_error a i) as [v | ] eqn:E.
  - now rewrite (nth_error_nth _ _ 0 E).
  - apply nth_error_None in E. lia.
Qed.

(** Indexing both sequences at a draw is resampling the pairs. *)
Lemma gather_pairs (x y : array) (draw : list nat) :
  List.length x = List.length y ->
  map (fun i => nth i x 0) draw = replicate_x x y draw /\
  map (fun i => nth i y 0) draw = replicate_y x y draw.
Proof.
  intros Hlen. unfold replicate_x, replicate_y, paired_resample.
  rewrite !map_map. split; apply map_ext; intros i;
    rewrite combine_nth by assumption; reflexivity.
Qed.

(** The loop over [range(bootstrap_samples)] visits the rows in order. *)
Lemma loop_rows {B : Type} (h : array -> array -> M B) (sx sy : list array) :
  forall (px py : list array) g,
    List.length px = List.length py ->
    List.length sx = List.length sy ->
    mapM (fun i =>
            bind (row (px ++ sx) i) (fun rx =>
            bind (row (py ++ sy) i) (fun ry => h rx ry)))
         (seq (List.length px) (List.length sx)) g =
    mapM (fun rr => h (fst rr) (snd rr)) (combine sx sy) g.
Proof.
  revert sy. induction sx as [ | a sx IH]; intros sy px py g Hp Hs.
  - reflexivity.
  - destruct sy as [ | a' sy]; [discriminate | ].
    cbn [List.length seq combine mapM].
    assert (Hx : row (px ++ a :: sx) (List.length px) g = (Ok a, g, [])).
    { unfold row. rewrite nth_error_app2, Nat.sub_diag by lia. reflexivity. }
    assert (Hy : row (py ++ a' :: sy) (List.length px) g = (Ok a', g, [])).
    { unfold row. rewrite Hp, nth_error_app2, Nat.sub_diag by lia. reflexivity. }
    apply bind_congr.
    + rewrite (bind_silent _ _ g a) by exact Hx.
      rewrite (bind_silent _ _ g a') by exact Hy. reflexivity.
    + intros v g1. apply bind_congr; [ | reflexivity].
      specialize (IH sy (px ++ [a]) (py ++ [a']) g1).
      rewrite <- !app_assoc in IH. cbn [app] in IH.
      rewrite !length_app in IH. cbn [List.length] in IH.
      rewrite !Nat.add_1_r in IH.
      apply IH; cbn in Hs; lia.
Qed.

(** The statistic of every resample, when each call returns. *)
Lemma replicates_ok f kwargs (rows : list (array * array)) (cs : list R) g :
  Forall2 (fun rr c => exists p, f (fst rr) (snd rr) kwargs = Returned (c, p))
          rows cs ->
  mapM (fun rr => bind (call (Some f) (fst rr) (snd rr) kwargs)
                       (fun v => let (c, _) := v in ret c)) rows g =
  (Ok cs, g, map (fun rr => EvStat (fst rr) (snd rr) kwargs) rows).
Proof.
  induction 1 as [ | rr c rows cs [p Hp] _ IH]; cbn [mapM map]; [reflexivity | ].
  eapply bind_logged.
  - rewrite (bind_step _ _ g (c, p) g [EvStat (fst rr) (snd rr) kwargs])
      by (now apply call_returned).
    reflexivity.
  - cbv beta. rewrite (bind_step _ _ _ _ _ _ IH). cbn. now rewrite app_nil_r.
Qed.

Lemma quantile_returned a q v g :
  np_quantile a q = Returned v ->
  quantile a q g = (Ok v, g, [EvQuantile a q]).
Proof. intros H. unfold quantile, bind, emit. rewrite H. reflexivity. Qed.

Lemma combine_map_same {A B C : Type} (f : A -> B) (h : A -> C) (l : list A) :
  combine (map f l) (map h l) = map (fun a => (f a, h a)) l.
Proof. induction l as [ | a l IH]; cbn; [reflexivity | now rewrite IH]. Qed.

Lemma Forall2_map_left {A B C : Type} (P : B -> C -> Prop) (f : A -> B)
    (l : list A) (cs : list C) :
  Forall2 (fun a c => P (f a) c) l cs -> Forall2 P (map f l) cs.
Proof. induction 1; cbn; constructor; assumption. Qed.

(** A run of the bootstrap in which the drawn indices are in range and
    every call returns. *)
Lemma bootstrap_ci_ok f x y kwargs alpha b g idx g' cs lo hi :
  List.length x = List.length y ->
  random_choice g (List.length x) b = (idx, g') ->
  List.length idx = b ->
  Forall (Forall (fun i => (i < List.length x)%nat)) idx ->
  Forall2 (fun draw c =>
             exists p, f (replicate_x x y draw) (replicate_y x y draw) kwargs
                       = Returned (c, p)) idx cs ->
  np_quantile cs (alpha / 2) = Returned lo ->
  np_quantile cs (1 - alpha / 2) = Returned hi ->
  bootstrap_ci (Some f) x y kwargs alpha (List.length x) b g =
  (Ok (lo, hi), g',
   EvChoice (List.length x) b
   :: map (fun draw =>
             EvStat (replicate_x x y draw) (replicate_y x y draw) kwargs) idx
   ++ [EvQuantile cs (alpha / 2); EvQuantile cs (1 - alpha / 2)]).
Proof.
  intros Hlen Hdraw Hb Hrange Hstat Hlo Hhi.
  unfold bootstrap_ci.
  rewrite (bind_step _ _ g idx g' [EvChoice (List.length x) b])
    by (unfold choice; rewrite Hdraw; reflexivity).
  rewrite (bind_silent _ _ g' _ (fancy_index_ok x idx g' Hrange)).
  rewrite (bind_silent _ _ g' (map (map (fun i => nth i y 0)) idx))
    by (apply fancy_index_ok; now rewrite <- Hlen).
  set (h := fun rx ry : array =>
              bind (call (Some f) rx ry kwargs) (fun v => let (c, _) := v in ret c)).
  pose proof (loop_rows h (map (map (fun i => nth i x 0)) idx)
                (map (map (fun i => nth i y 0)) idx) [] [] g' eq_refl) as Hloop.
  cbn [app List.length] in Hloop. rewrite !length_map, Hb in Hloop.
  specialize (Hloop eq_refl).
  rewrite combine_map_same in Hloop.
  assert (Hrows :
    mapM (fun rr => h (fst rr) (snd rr))
         (map (fun draw => (map (fun i => nth i x 0) draw,
                            map (fun i => nth i y 0) draw)) idx) g' =
    (Ok cs, g',
     map (fun draw =>
            EvStat (replicate_x x y draw) (replicate_y x y draw) kwargs) idx)).
  { unfold h. rewrite (replicates_ok f kwargs _ cs).
    - rewrite map_map. cbn [fst snd].
      apply (f_equal (pair (Ok cs, g'))). apply map_ext. intros draw.
      destruct (gather_pairs x y draw Hlen) as [-> ->]. reflexivity.
    - apply Forall2_map_left. cbn [fst snd].
      eapply Forall2_impl; [ | exact Hstat]. intros draw c Hc. cbv beta in *.
      destruct (gather_pairs x y draw Hlen) as [-> ->]. exact Hc. }
  assert (Hloop' := eq_trans Hloop Hrows).
  unfold h in Hloop'. cbv beta in Hloop'.
  rewrite (bind_step _ _ _ _ _ _ Hloop').
  rewrite (bind_step _ _ _ _ _ _ (quantile_returned _ _ _ g' Hlo)).
  rewrite (bind_step _ _ _ _ _ _ (quantile_returned _ _ _ g' Hhi)).
  reflexivity.
Qed.

(** ** Properties of [corr] *)

(** The log of a run past the degenerate case, by branch. *)
Lemma corr_log_branches x y method alpha ci b bootstrap custom kwargs g f c p :
  outcome_of (resolve_corr_func method custom g) = Ok (Some f) ->
  f x y kwargs = Returned (c, p) ->
  Rabs c <> 1 ->
  let l := log_of (corr x y method false alpha ci b bootstrap custom kwargs g) in
  if negb bootstrap && Rltb (Rabs c) (spec_threshold method)
  then took_normal l = true /\ took_resampling l = false
  else took_normal l = false /\ took_resampling l = true.
Proof.
  intros Hres Hf Hc. cbv zeta.
  rewrite (corr_run _ _ _ _ _ _ _ _ _ _ _ _ _ _ Hres Hf).
  rewrite Reqb_false by assumption. cbv zeta.
  unfold took_normal, took_resampling.
  destruct (negb bootstrap && Rltb (Rabs c) (spec_threshold method));
    cbn [log_of snd existsb is_fisher is_choice orb].
  - split; [apply took_normal_normal_ci | ].
    apply existsb_false_of_Forall, logs_no_choice_normal_ci.
  - split; [ | apply took_resampling_bootstrap_ci].
    apply existsb_false_of_Forall, logs_no_fisher_bootstrap_ci.
Qed.

(** C1. With [skip_ci] false and a coefficient whose magnitude is not 1,
    a run takes the branch of the normal approximation if and only if
    [bootstrap] is false and the magnitude of the coefficient is strictly
    below the threshold of the method (0.8 for kendall_tau, 0.95 for
    spearman_rho, 1 for pearson_r, 0 for customized); in every other case
    it takes the branch of the resampling. *)
Theorem strategy_selection x y method alpha ci b bootstrap custom kwargs g f c p :
  outcome_of (resolve_corr_func method custom g) = Ok (Some f) ->
  f x y kwargs = Returned (c, p) ->
  Rabs c <> 1 ->
  let l := log_of (corr x y method false alpha ci b bootstrap custom kwargs g) in
  (took_normal l = true <->
   bootstrap = false /\ Rabs c < spec_threshold method) /\
  (took_resampling l = true <->
   ~ (bootstrap = false /\ Rabs c < spec_threshold method)).
Proof.
  intros Hres Hf Hc l.
  pose proof (corr_log_branches x y method alpha ci b bootstrap custom kwargs g
                f c p Hres Hf Hc) as H.
  cbv zeta in H. fold l in H.
  destruct bootstrap; cbn [negb andb] in H.
  - destruct H as [Hn Hr]. rewrite Hn, Hr. intuition congruence.
  - destruct (Rlt_dec (Rabs c) (spec_threshold method)) as [Hlt | Hge].
    + rewrite Rltb_true in H by assumption. destruct H as [Hn Hr].
      rewrite Hn, Hr. intuition congruence.
    + rewrite Rltb_false in H by assumption. destruct H as [Hn Hr].
      rewrite Hn, Hr. intuition congruence.
Qed.

(** A run of the normal approximation with a built-in statistic, in
    full. *)
Lemma corr_normal_run m x y alpha ci b custom kwargs g c p :
  builtin_stat m x y kwargs = Returned (c, p) ->
  Rabs c < spec_threshold (name_of m) ->
  (spec_se_offset m < List.length x)%nat ->
  corr x y (name_of m) false alpha ci b false custom kwargs g =
  (Ok (c,
       Some (spec_bound (spec_z c
                         - norm_ppf (1 - effective_alpha alpha ci / 2)
                           * spec_se m c (List.length x))),
       Some (spec_bound (spec_z c
                         + norm_ppf (1 - effective_alpha alpha ci / 2)
                           * spec_se m c (List.length x))),
       p),
   g,
   [EvStat x y kwargs; EvFisher c; EvSeTable (name_of m);
    EvPpf (1 - effective_alpha alpha ci / 2);
    EvPpf (1 - effective_alpha alpha ci / 2)]).
Proof.
  intros Hf Hthr Hn.
  pose proof (spec_threshold_le_1 (name_of m)) as Hle.
  assert (Hres : outcome_of (resolve_corr_func (name_of m) custom g) =
                 Ok (Some (builtin_stat m))) by (destruct m; reflexivity).
  rewrite (corr_run _ _ _ _ _ _ _ _ _ _ _ _ _ _ Hres Hf).
  rewrite Reqb_false by lra.
  rewrite Rltb_true by assumption. cbn [negb andb]. cbv zeta.
  rewrite normal_ci_ok by (assumption || lra).
  reflexivity.
Qed.

(** C2. On the branch of the normal approximation the bounds are
    [spec_bound (z - q * se)] and [spec_bound (z + q * se)], where
    [z = 0.5 * ln ((1 + c) / (1 - c))], [q] is the normal quantile at
    [1 - alpha / 2], [se = sqrt (numerator / (n - offset))] with numerator
    and offset 0.437 and 4 for kendall_tau, [1 + c^2 / 2] and 3 for
    spearman_rho, 1 and 3 for pearson_r, and
    [spec_bound t = (exp (2 * t) - 1) / (exp (2 * t) + 1)]. *)
Theorem normal_bounds_formula m x y alpha ci b custom kwargs g c p :
  builtin_stat m x y kwargs = Returned (c, p) ->
  Rabs c < spec_threshold (name_of m) ->
  (spec_se_offset m < List.length x)%nat ->
  let a := effective_alpha alpha ci in
  let z := 0.5 * ln ((1 + c) / (1 - c)) in
  let numerator :=
    match m with
    | KendallTau => 0.437
    | SpearmanRho => 1 + c * c / 2
    | PearsonR => 1
    end in
  let offset :=
    match m with KendallTau => 4 | SpearmanRho => 3 | PearsonR => 3 end in
  let se := sqrt (numerator / (INR (List.length x) - offset)) in
  let z_lower := z - norm_ppf (1 - a / 2) * se in
  let z_upper := z + norm_ppf (1 - a / 2) * se in
  outcome_of (corr x y (name_of m) false alpha ci b false custom kwargs g) =
  Ok (c,
      Some ((exp (2 * z_lower) - 1) / (exp (2 * z_lower) + 1)),
      Some ((exp (2 * z_upper) - 1) / (exp (2 * z_upper) + 1)),
      p).
Proof.
  intros Hf Hthr Hn a z numerator offset se z_lower z_upper.
  rewrite (corr_normal_run m x y alpha ci b custom kwargs g c p Hf Hthr Hn).
  cbn [outcome_of fst].
  assert (Hse : spec_se m c (List.length x) = se).
  { unfold spec_se, se, numerator, offset. destruct m; cbn [spec_se_numerator
      spec_se_offset INR]; f_equal; f_equal; lra. }
  rewrite Hse. reflexivity.
Qed.

(** A run of the resampling in which the drawn indices are in range and
    every call returns, in full. *)
Lemma corr_resampling_run x y method alpha ci b bootstrap custom kwargs g f c p
    idx g' cs lo hi :
  outcome_of (resolve_corr_func method custom g) = Ok (Some f) ->
  f x y kwargs = Returned (c, p) ->
  Rabs c <> 1 ->
  ~ (bootstrap = false /\ Rabs c < spec_threshold method) ->
  List.length x = List.length y ->
  random_choice g (List.length x) b = (idx, g') ->
  List.length idx = b ->
  Forall (Forall (fun i => (i < List.length x)%nat)) idx ->
  Forall2 (fun draw ci =>
             exists pi, f (replicate_x x y draw) (replicate_y x y draw) kwargs
                        = Returned (ci, pi)) idx cs ->
  np_quantile cs (effective_alpha alpha ci / 2) = Returned lo ->
  np_quantile cs (1 - effective_alpha alpha ci / 2) = Returned hi ->
  corr x y method false alpha ci b bootstrap custom kwargs g =
  (Ok (c, Some lo, Some hi, p), g',
   EvStat x y kwargs
   :: EvChoice (List.length x) b
   :: map (fun draw =>
             EvStat (replicate_x x y draw) (replicate_y x y draw) kwargs) idx
   ++ [EvQuantile cs (effective_alpha alpha ci / 2);
       EvQuantile cs (1 - effective_alpha alpha ci / 2)]).
Proof.
  intros Hres Hf Hc Hbranch Hlen Hdraw Hb Hrange Hstat Hlo Hhi.
  rewrite (corr_run _ _ _ _ _ _ _ _ _ _ _ _ _ _ Hres Hf).
  rewrite Reqb_false by assumption. cbv zeta.
  assert (Hcond : negb bootstrap && Rltb (Rabs c) (spec_threshold method) = false).
  { destruct bootstrap; [reflexivity | ]. cbn [negb andb].
    apply Rltb_false. intros Hlt. apply Hbranch. now split. }
  rewrite Hcond.
  rewrite (bootstrap_ci_ok f x y kwargs (effective_alpha alpha ci) b g idx g'
             cs lo hi) by assumption.
  reflexivity.
Qed.

(** C3. On the branch of the resampling, [corr] draws once
    [bootstrap_samples] rows of [n] indices below [n] (with replacement),
    takes [x] and [y] at the same drawn indices in every row, calls the
    statistic on every resampled pair with the same keyword arguments,
    keeps the coefficients only, and returns their quantiles at
    [alpha / 2] and at [1 - alpha / 2] as lower and upper bound. *)
Theorem resampling_bounds x y method alpha ci b bootstrap custom kwargs g f c p
    idx g' cs lo hi :
  outcome_of (resolve_corr_func method custom g) = Ok (Some f) ->
  f x y kwargs = Returned (c, p) ->
  Rabs c <> 1 ->
  ~ (bootstrap = false /\ Rabs c < spec_threshold method) ->
  List.length x = List.length y ->
  random_choice g (List.length x) b = (idx, g') ->
  List.length idx = b ->
  Forall (Forall (fun i => (i < List.length x)%nat)) idx ->
  Forall2 (fun draw ci =>
             exists pi, f (replicate_x x y draw) (replicate_y x y draw) kwargs
                        = Returned (ci, pi)) idx cs ->
  let a := effective_alpha alpha ci in
  np_quantile cs (a / 2) = Returned lo ->
  np_quantile cs (1 - a / 2) = Returned hi ->
  let run := corr x y method false alpha ci b bootstrap custom kwargs g in
  outcome_of run = Ok (c, Some lo, Some hi, p) /\
  state_of run = g' /\
  log_of run =
    [EvStat x y kwargs; EvChoice (List.length x) b]
    ++ map (fun draw =>
              EvStat (map fst (paired_resample (combine x y) draw))
                     (map snd (paired_resample (combine x y) draw)) kwargs) idx
    ++ [EvQuantile cs (a / 2); EvQuantile cs (1 - a / 2)].
Proof.
  intros Hres Hf Hc Hbranch Hlen Hdraw Hb Hrange Hstat a Hlo Hhi run.
  subst run a.
  rewrite (corr_resampling_run x y method alpha ci b bootstrap custom kwargs g
             f c p idx g' cs lo hi) by assumption.
  repeat split.
Qed.


(** No run divides by [1 - r] in the transform at a coefficient [r] of
    magnitude 1. *)
Lemma fisher_never_degenerate x y method skip_ci alpha ci b bootstrap custom
    kwargs g r :
  In (EvFisher r)
     (log_of (corr x y method skip_ci alpha ci b bootstrap custom kwargs g)) ->
  Rabs r <> 1 /\ 1 - r <> 0 /\ 1 + r <> 0.
Proof.
  intros Hin.
  assert (Hr : Rabs r <> 1).
  { destruct (outcome_of (resolve_corr_func method custom g))
      as [[f | ] | e] eqn:Hres.
    - destruct (f x y kwargs) as [[c p] | msg] eqn:Hf.
      + rewrite (corr_run _ _ _ _ _ _ _ _ _ _ _ _ _ _ Hres Hf) in Hin.
        destruct skip_ci; [cbn in Hin; intuition discriminate | ].
        destruct (Req_dec_T (Rabs c) 1) as [Heq | Hne].
        * rewrite Reqb_true in Hin by assumption. cbn in Hin.
          intuition discriminate.
        * rewrite Reqb_false in Hin by assumption. cbv zeta in Hin.
          cbn [log_of snd In] in Hin. destruct Hin as [Hin | Hin];
            [discriminate | ].
          destruct (negb bootstrap && Rltb (Rabs c) (spec_threshold method)).
          -- pose proof (logs_fisher_normal_ci method c
                           (effective_alpha alpha ci) (List.length x) g) as Hl.
             rewrite Forall_forall in Hl. specialize (Hl _ Hin).
             cbn in Hl. now subst r.
          -- pose proof (logs_no_fisher_bootstrap_ci (Some f) x y kwargs
                           (effective_alpha alpha ci) (List.length x) b g) as Hl.
             rewrite Forall_forall in Hl. specialize (Hl _ Hin).
             discriminate.
      + rewrite (corr_stat_failed _ _ _ _ _ _ _ _ _ _ _ _ _ Hres Hf) in Hin.
        cbn in Hin. intuition discriminate.
    - rewrite (corr_not_callable _ _ _ _ _ _ _ _ _ _ _ Hres) in Hin.
      contradiction.
    - rewrite (corr_unresolved _ _ _ _ _ _ _ _ _ _ _ _ Hres) in Hin.
      contradiction. }
  split; [assumption | ]. split; intros H; apply Hr.
  - unfold Rabs. destruct (Rcase_abs r); lra.
  - unfold Rabs. destruct (Rcase_abs r); lra.
Qed.

(** C5. With [skip_ci] false and a coefficient of magnitude exactly 1,
    [corr] returns [(coefficient, coefficient, coefficient, p_value)]
    right after the call of the statistic, and in no run at all is the
    division of the transform evaluated at a coefficient of magnitude 1. *)
Theorem degenerate_collapse x y method alpha ci b bootstrap custom kwargs g f c p :
  outcome_of (resolve_corr_func method custom g) = Ok (Some f) ->
  f x y kwargs = Returned (c, p) ->
  Rabs c = 1 ->
  corr x y method false alpha ci b bootstrap custom kwargs g =
  (Ok (c, Some c, Some c, p), g, [EvStat x y kwargs]) /\
  (forall x' y' method' skip_ci' alpha' ci' b' bootstrap' custom' kwargs' g' r,
      In (EvFisher r)
         (log_of (corr x' y' method' skip_ci' alpha' ci' b' bootstrap' custom'
                    kwargs' g')) ->
      Rabs r <> 1 /\ 1 - r <> 0 /\ 1 + r <> 0).
Proof.
  intros Hres Hf Hc. split.
  - rewrite (corr_run _ _ _ _ _ _ _ _ _ _ _ _ _ _ Hres Hf).
    now rewrite Reqb_true by assumption.
  - intros. eapply fisher_never_degenerate. eassumption.
Qed.

(** C6. With [skip_ci] true, [corr] returns
    [(coefficient, None, None, p_value)] right after the call of the
    statistic, without drawing; coefficient and p-value are the ones a
    call with [skip_ci] false returns on the same arguments and generator
    state. *)
Theorem skip_ci_returns_early x y method alpha ci b bootstrap custom kwargs g
    f c p :
  outcome_of (resolve_corr_func method custom g) = Ok (Some f) ->
  f x y kwargs = Returned (c, p) ->
  corr x y method true alpha ci b bootstrap custom kwargs g =
  (Ok (c, None, None, p), g, [EvStat x y kwargs]) /\
  (forall r g' l,
      corr x y method false alpha ci b bootstrap custom kwargs g = (Ok r, g', l) ->
      exists lo hi, r = (c, lo, hi, p)).
Proof.
  intros Hres Hf. split.
  - now rewrite (corr_run _ _ _ _ _ _ _ _ _ _ _ _ _ _ Hres Hf).
  - intros r g' l. rewrite (corr_run _ _ _ _ _ _ _ _ _ _ _ _ _ _ Hres Hf).
    destruct (Reqb (Rabs c) 1).
    + intros [= <- _ _]. now do 2 eexists.
    + cbv zeta.
      match goal with
      | |- (with_bounds _ _ (outcome_of ?t), _, _) = _ -> _ =>
          destruct (outcome_of t) as [[lo hi] | e]
      end; cbn [with_bounds]; [ | discriminate].
      intros [= <- _ _]. now do 2 eexists.
Qed.

Lemma names_not_message method :
  In method method_names -> method <> invalid_method_msg.
Proof.
  unfold method_names. cbn [In].
  intros [<- | [<- | [<- | [<- | []]]]]; discriminate.
Qed.

(** With a selector of the enumerated set, no run ends with the error of
    the invalid method. *)
Lemma valid_method_no_invalid_error x y method skip_ci alpha ci b bootstrap
    custom kwargs g :
  In method method_names ->
  outcome_of (corr x y method skip_ci alpha ci b bootstrap custom kwargs g) <>
  Raise (KeyError invalid_method_msg).
Proof.
  intros Hin.
  pose proof (names_not_message _ Hin) as Hmsg.
  destruct (resolve_corr_func_valid method custom g Hin) as [[f | ] Hres].
  - destruct (f x y kwargs) as [[c p] | msg] eqn:Hf.
    + rewrite (corr_run _ _ _ _ _ _ _ _ _ _ _ _ _ _ Hres Hf).
      destruct skip_ci; [discriminate | ].
      destruct (Reqb (Rabs c) 1); [discriminate | ].
      cbv zeta. cbn [outcome_of fst].
      set (Q := fun e => e <> KeyError invalid_method_msg).
      destruct (negb bootstrap && Rltb (Rabs c) (spec_threshold method)).
      * pose proof (raises_normal_ci Q method c (effective_alpha alpha ci)
                      (List.length x)) as Hr.
        specialize (Hr ltac:(unfold Q; congruence) ltac:(unfold Q; discriminate)
                       ltac:(unfold Q; discriminate) g).
        destruct (outcome_of (normal_ci _ _ _ _ g)) as [[lo hi] | e];
          cbn [with_bounds]; [discriminate | ].
        intros [= ->]. now apply (Hr _ eq_refl).
      * pose proof (raises_bootstrap_ci Q f x y kwargs (effective_alpha alpha ci)
                      (List.length x) b) as Hr.
        specialize (Hr ltac:(unfold Q; discriminate)
                       ltac:(unfold Q; discriminate) g).
        destruct (outcome_of (bootstrap_ci _ _ _ _ _ _ _ g)) as [[lo hi] | e];
          cbn [with_bounds]; [discriminate | ].
        intros [= ->]. now apply (Hr _ eq_refl).
    + rewrite (corr_stat_failed _ _ _ _ _ _ _ _ _ _ _ _ _ Hres Hf). discriminate.
  - rewrite (corr_not_callable _ _ _ _ _ _ _ _ _ _ _ Hres). discriminate.
Qed.

(** C7, amended. [corr] ends with the error of the invalid method if and
    only if the selector is outside the enumerated set, and then nothing
    was computed or drawn.  With the selector customized and no function
    given, the run ends before any statistic is computed too, with the type
    error of calling [None]. *)
Theorem invalid_method_error x y method skip_ci alpha ci b bootstrap custom
    kwargs g :
  let run := corr x y method skip_ci alpha ci b bootstrap custom kwargs g in
  (outcome_of run = Raise (KeyError invalid_method_msg) <->
   ~ In method method_names) /\
  (~ In method method_names ->
   run = (Raise (KeyError invalid_method_msg), g, [])) /\
  (method = "customized"%string -> custom = None ->
   run = (Raise (TypeError "'NoneType' object is not callable"), g, [])).
Proof.
  intros run. subst run.
  assert (Hinv : ~ In method method_names ->
                 corr x y method skip_ci alpha ci b bootstrap custom kwargs g =
                 (Raise (KeyError invalid_method_msg), g, [])).
  { intros Hn. apply corr_unresolved. now apply resolve_corr_func_invalid. }
  split; [ | split].
  - split.
    + intros Hout Hin.
      now apply (valid_method_no_invalid_error x y method skip_ci alpha ci b
                   bootstrap custom kwargs g Hin).
    + intros Hn. now rewrite Hinv.
  - exact Hinv.
  - intros -> ->. now apply corr_not_callable.
Qed.

(** C9. With the selector customized and a function given, no run enters
    the branch of the normal approximation, whatever the coefficient: its
    log has none of the events of that branch, so the tables of the
    standard error are not read, and no run ends with a key error. *)
Theorem customized_never_normal x y skip_ci alpha ci b bootstrap f kwargs g :
  let run := corr x y "customized" skip_ci alpha ci b bootstrap (Some f) kwargs g in
  Forall (fun e => is_normal_event e = false) (log_of run) /\
  took_normal (log_of run) = false /\
  (forall k, outcome_of run <> Raise (KeyError k)).
Proof.
  intros run.
  assert (H : Forall (fun e => is_normal_event e = false) (log_of run) /\
              (forall k, outcome_of run <> Raise (KeyError k))).
  { subst run.
    assert (Hres : outcome_of (resolve_corr_func "customized" (Some f) g) =
                   Ok (Some f)) by reflexivity.
    destruct (f x y kwargs) as [[c p] | msg] eqn:Hf.
    - rewrite (corr_run _ _ _ _ _ _ _ _ _ _ _ _ _ _ Hres Hf).
      destruct skip_ci; [split; [repeat constructor | discriminate] | ].
      destruct (Reqb (Rabs c) 1); [split; [repeat constructor | discriminate] | ].
      change (spec_threshold "customized") with 0.
      rewrite (Rltb_false (Rabs c) 0) by (apply Rle_not_lt, Rabs_pos).
      rewrite andb_false_r. cbv zeta. cbn [log_of outcome_of fst snd]. split.
      + constructor; [reflexivity | apply logs_bootstrap_ci].
      + intros k.
        pose proof (raises_bootstrap_ci (fun e => forall k, e <> KeyError k)
                      f x y kwargs (effective_alpha alpha ci) (List.length x) b
                      ltac:(discriminate) ltac:(discriminate) g) as Hr.
        destruct (outcome_of (bootstrap_ci _ _ _ _ _ _ _ g)) as [[lo hi] | e];
          cbn [with_bounds]; [discriminate | ].
        intros [= ->]. now apply (Hr _ eq_refl k).
    - rewrite (corr_stat_failed _ _ _ _ _ _ _ _ _ _ _ _ _ Hres Hf).
      split; [repeat constructor | discriminate]. }
  destruct H as [Hlog Hout]. repeat split; try assumption.
  apply existsb_false_of_Forall. eapply Forall_impl; [ | exact Hlog].
  intros [ | | | | | ]; cbn; congruence.
Qed.


(** ** More about runs of [corr] *)

(** The four ways a run of [corr] can go, for a goal about the run. *)
Ltac corr_cases x y method skip_ci alpha ci b bootstrap custom kwargs g :=
  let f := fresh "f" in
  let e := fresh "e" in
  let c := fresh "c" in
  let p := fresh "p" in
  let msg := fresh "msg" in
  let Hres := fresh "Hres" in
  let Hf := fresh "Hf" in
  destruct (outcome_of (resolve_corr_func method custom g))
    as [[f | ] | e] eqn:Hres;
  [ destruct (f x y kwargs) as [[c p] | msg] eqn:Hf;
    [ rewrite (corr_run x y method skip_ci alpha ci b bootstrap custom kwargs g
                 f c p Hres Hf)
    | rewrite (corr_stat_failed x y method skip_ci alpha ci b bootstrap custom
                 kwargs g f msg Hres Hf) ]
  | rewrite (corr_not_callable x y method skip_ci alpha ci b bootstrap custom
               kwargs g Hres)
  | rewrite (corr_unresolved x y method skip_ci alpha ci b bootstrap custom
               kwargs g e Hres) ].

(** *** The generator *)

Lemma keeps_state_ret {A : Type} (a : A) : keeps_state (ret a).
Proof. intros g. reflexivity. Qed.

Lemma keeps_state_raise {A : Type} e : keeps_state (@raise A e).
Proof. intros g. reflexivity. Qed.

Lemma keeps_state_emit e : keeps_state (emit e).
Proof. intros g. reflexivity. Qed.

Lemma keeps_state_bind {A B : Type} (m : M A) (k : A -> M B) :
  keeps_state m -> (forall a, keeps_state (k a)) -> keeps_state (bind m k).
Proof.
  intros Hm Hk g. unfold bind. specialize (Hm g).
  destruct (m g) as [[[a | e] g1] l1]; cbn in *; subst g1; [ | reflexivity].
  specialize (Hk a g). destruct (k a g) as [[o g2] l2]. exact Hk.
Qed.

Lemma keeps_state_mapM {A B : Type} (k : A -> M B) (l : list A) :
  (forall a, keeps_state (k a)) -> keeps_state (mapM k l).
Proof.
  intros Hk. induction l as [ | a l IH]; cbn [mapM].
  - apply keeps_state_ret.
  - apply keeps_state_bind; [apply Hk | intros v].
    apply keeps_state_bind; [apply IH | intros vs]. apply keeps_state_ret.
Qed.

Lemma keeps_state_getitem {V : Type} (d : dict V) k : keeps_state (getitem d k).
Proof.
  unfold getitem.
  destruct (dict_get d k); [apply keeps_state_ret | apply keeps_state_raise].
Qed.

Lemma keeps_state_py_div a b : keeps_state (py_div a b).
Proof.
  unfold py_div.
  destruct (Reqb b 0); [apply keeps_state_raise | apply keeps_state_ret].
Qed.

Lemma keeps_state_np_div a b : keeps_state (np_div a b).
Proof.
  unfold np_div.
  destruct (Reqb b 0); [apply keeps_state_raise | apply keeps_state_ret].
Qed.

Lemma keeps_state_div_by_int a k : keeps_state (div_by_int a k).
Proof. destruct a; [apply keeps_state_py_div | apply keeps_state_np_div]. Qed.

Lemma keeps_state_np_log a : keeps_state (np_log a).
Proof.
  unfold np_log.
  destruct (Rltb 0 a); [apply keeps_state_ret | apply keeps_state_raise].
Qed.

Lemma keeps_state_np_sqrt a : keeps_state (np_sqrt a).
Proof.
  unfold np_sqrt.
  destruct (Rltb a 0); [apply keeps_state_raise | apply keeps_state_ret].
Qed.

Lemma keeps_state_ppf p : keeps_state (ppf p).
Proof. intros g. reflexivity. Qed.

(** The normal approximation leaves the generator alone. *)
Lemma keeps_state_normal_ci method c alpha n :
  keeps_state (normal_ci method c alpha n).
Proof.
  unfold normal_ci.
  repeat first
    [ apply keeps_state_ret | apply keeps_state_emit | apply keeps_state_ppf
    | apply keeps_state_getitem | apply keeps_state_np_div
    | apply keeps_state_div_by_int
    | apply keeps_state_np_log | apply keeps_state_np_sqrt
    | apply keeps_state_bind; [ | intro ] ].
Qed.

(** X1. [corr] advances the random generator on the branch of the
    resampling only: a run that ends in another generator state than it
    started in has resolved a statistic that returned a coefficient of
    magnitude other than 1, with [skip_ci] false, and either [bootstrap] set
    or the magnitude at or above the threshold of the method. *)
Theorem generator_advances_only_when_resampling x y method skip_ci alpha ci b
    bootstrap custom kwargs g :
  state_of (corr x y method skip_ci alpha ci b bootstrap custom kwargs g) <> g ->
  exists f c p,
    outcome_of (resolve_corr_func method custom g) = Ok (Some f) /\
    f x y kwargs = Returned (c, p) /\
    skip_ci = false /\
    Rabs c <> 1 /\
    ~ (bootstrap = false /\ Rabs c < spec_threshold method).
Proof.
  corr_cases x y method skip_ci alpha ci b bootstrap custom kwargs g;
    try (intros H; now contradiction H).
  destruct skip_ci; [intros H; now contradiction H | ].
  destruct (Req_dec_T (Rabs c) 1) as [Heq | Hne].
  { rewrite Reqb_true by assumption. intros H. now contradiction H. }
  rewrite Reqb_false by assumption. cbv zeta. cbn [state_of fst snd].
  destruct (negb bootstrap && Rltb (Rabs c) (spec_threshold method)) eqn:Hcond.
  - intros H. contradiction H. apply keeps_state_normal_ci.
  - intros _. exists f, c, p. repeat split; try assumption.
    intros [-> Hlt]. cbn [negb andb] in Hcond.
    rewrite Rltb_true in Hcond by assumption. discriminate Hcond.
Qed.

(** X2. When the statistic fails on the full sample, [corr] ends with that
    failure, unchanged, right after the one call: nothing is drawn and no
    other provider is called, whatever the other arguments. *)
Theorem statistic_failure_propagates x y method skip_ci alpha ci b bootstrap custom
    kwargs g f msg :
  outcome_of (resolve_corr_func method custom g) = Ok (Some f) ->
  f x y kwargs = Failed msg ->
  corr x y method skip_ci alpha ci b bootstrap custom kwargs g =
  (Raise (External msg), g, [EvStat x y kwargs]).
Proof. apply corr_stat_failed. Qed.

(** X3. With a built-in selector the custom function is not looked at: the
    run is the one without a custom function. *)
Theorem builtin_ignores_custom m x y skip_ci alpha ci b bootstrap custom kwargs g :
  corr x y (name_of m) skip_ci alpha ci b bootstrap custom kwargs g =
  corr x y (name_of m) skip_ci alpha ci b bootstrap None kwargs g.
Proof. destruct m; reflexivity. Qed.

(** X4. Whenever [corr] returns, the first and the last component of the
    tuple are the coefficient and the p-value the statistic returned on the
    full sample, and the two bounds are both [None] when [skip_ci] is true
    and both present otherwise. *)
Theorem result_shape x y method skip_ci alpha ci b bootstrap custom kwargs g
    c lo hi p g' l :
  corr x y method skip_ci alpha ci b bootstrap custom kwargs g =
  (Ok (c, lo, hi, p), g', l) ->
  (exists f, outcome_of (resolve_corr_func method custom g) = Ok (Some f) /\
             f x y kwargs = Returned (c, p)) /\
  ((skip_ci = true /\ lo = None /\ hi = None) \/
   (skip_ci = false /\ exists vl vh, lo = Some vl /\ hi = Some vh)).
Proof.
  corr_cases x y method skip_ci alpha ci b bootstrap custom kwargs g;
    try discriminate.
  destruct skip_ci.
  { intros [= <- <- <- <- _ _]. split; [now exists f | left; auto]. }
  destruct (Reqb (Rabs c0) 1).
  { intros [= <- <- <- <- _ _]. split; [now exists f | right].
    split; [reflexivity | now do 2 eexists]. }
  cbv zeta.
  match goal with
  | |- (with_bounds _ _ (outcome_of ?t), _, _) = _ -> _ =>
      destruct (outcome_of t) as [[vl vh] | e]
  end; cbn [with_bounds]; [ | discriminate].
  intros [= <- <- <- <- _ _]. split; [now exists f | right].
  split; [reflexivity | now do 2 eexists].
Qed.

(** *** Indexing at the drawn indices *)

Lemma logs_bind_ret {A B : Type} P (a : A) (k : A -> M B) :
  logs P (k a) -> logs P (bind (ret a) k).
Proof.
  intros H g. rewrite (bind_silent _ _ g a) by reflexivity. apply H.
Qed.

Lemma logs_bind_raise {A B : Type} P e (k : A -> M B) :
  logs P (bind (raise e) k).
Proof. intros g. constructor. Qed.

(** A loop of steps that each either return silently, when [P] holds, or
    raise [e] silently, when it does not. *)
Lemma mapM_partial {A B : Type} (k : A -> M B) (h : A -> B) (P : A -> Prop)
    e (l : list A) g :
  (forall a, (P a /\ k a g = (Ok (h a), g, [])) \/
             (~ P a /\ k a g = (Raise e, g, []))) ->
  (Forall P l /\ mapM k l g = (Ok (map h l), g, [])) \/
  (~ Forall P l /\ mapM k l g = (Raise e, g, [])).
Proof.
  intros Hk. induction l as [ | a l IH]; cbn [mapM map].
  - left. split; [constructor | reflexivity].
  - destruct (Hk a) as [[Pa Ea] | [Pa Ea]].
    + rewrite (bind_silent _ _ g (h a)) by exact Ea.
      destruct IH as [[Pl El] | [Pl El]].
      * left. split; [now constructor | ].
        rewrite (bind_silent _ _ g (map h l)) by exact El. reflexivity.
      * right. split; [intros H; inversion H; contradiction | ].
        now apply bind_raise.
    + right. split; [intros H; inversion H; contradiction | ].
      now apply bind_raise.
Qed.

(** [a[idx]] returns the gathered rows, or raises [IndexError] when some
    index is out of range; either way silently. *)
Lemma fancy_index_cases (a : array) (idx : list (list nat)) g :
  (Forall (in_range a) idx /\
   fancy_index a idx g = (Ok (map (gather a) idx), g, [])) \/
  (~ Forall (in_range a) idx /\
   fancy_index a idx g = (Raise IndexError, g, [])).
Proof.
  unfold fancy_index. apply mapM_partial. intros draw.
  unfold in_range, gather. apply mapM_partial. intros i.
  destruct (nth_error a i) as [v | ] eqn:E.
  - left. split.
    + apply nth_error_Some. congruence.
    + now rewrite (nth_error_nth _ _ 0 E).
  - right. split; [ | reflexivity].
    apply nth_error_None in E. lia.
Qed.

(** Every call of the statistic inside the loop is on rows gathered at the
    same indices. *)
Lemma logs_sample_loop cf x y kwargs idx (l : list nat) :
  Forall (in_range x) idx -> Forall (in_range y) idx ->
  logs (sample_call x y kwargs)
       (mapM (fun i =>
                bind (row (map (gather x) idx) i) (fun bx =>
                bind (row (map (gather y) idx) i) (fun by_ =>
                bind (call cf bx by_ kwargs) (fun v => let (c, _) := v in ret c))))
             l).
Proof.
  intros Hx Hy. apply logs_mapM. intros i. unfold row.
  rewrite !nth_error_map.
  destruct (nth_error idx i) as [draw | ] eqn:E; cbn [option_map].
  - apply nth_error_In in E.
    apply logs_bind_ret, logs_bind_ret, logs_bind.
    + apply logs_call. split; [reflexivity | right]. exists draw.
      rewrite Forall_forall in Hx, Hy. auto.
    + intros [c p]. apply logs_ret.
  - apply logs_bind_raise.
Qed.

Lemma logs_sample_bootstrap_ci f x y kwargs alpha b :
  logs (sample_call x y kwargs)
       (bootstrap_ci (Some f) x y kwargs alpha (List.length x) b).
Proof.
  intros g. unfold bootstrap_ci.
  destruct (random_choice g (List.length x) b) as [idx g1] eqn:Hdraw.
  rewrite (bind_step _ _ g idx g1 [EvChoice (List.length x) b])
    by (unfold choice; rewrite Hdraw; reflexivity).
  cbn [log_of snd]. apply Forall_app. split; [repeat constructor | ].
  destruct (fancy_index_cases x idx g1) as [[Hx Ex] | [Hx Ex]].
  2:{ rewrite (bind_raise _ _ _ _ _ _ Ex). constructor. }
  rewrite (bind_silent _ _ _ _ Ex).
  destruct (fancy_index_cases y idx g1) as [[Hy Ey] | [Hy Ey]].
  2:{ rewrite (bind_raise _ _ _ _ _ _ Ey). constructor. }
  rewrite (bind_silent _ _ _ _ Ey).
  apply logs_bind.
  - now apply logs_sample_loop.
  - intros cs.
    apply logs_bind; [apply logs_quantile; exact I | intros lo].
    apply logs_bind; [apply logs_quantile; exact I | intros hi].
    apply logs_ret.
Qed.

(** X5. In every run of [corr], every call of the statistic carries the
    keyword arguments of the caller and is either on the full sample or on
    [x] and [y] taken at one and the same list of indices, all in range of
    both: the pairing of the observations is never broken and no value is
    passed that is not an observation. *)
Theorem statistic_calls_paired x y method skip_ci alpha ci b bootstrap custom
    kwargs g :
  Forall (sample_call x y kwargs)
         (log_of (corr x y method skip_ci alpha ci b bootstrap custom kwargs g)).
Proof.
  assert (Hfirst : sample_call x y kwargs (EvStat x y kwargs))
    by (split; [reflexivity | now left]).
  corr_cases x y method skip_ci alpha ci b bootstrap custom kwargs g;
    try (repeat constructor; assumption).
  destruct skip_ci; [repeat constructor; assumption | ].
  destruct (Reqb (Rabs c) 1); [repeat constructor; assumption | ].
  cbv zeta. cbn [log_of snd]. constructor; [assumption | ].
  destruct (negb bootstrap && Rltb (Rabs c) (spec_threshold method)).
  - eapply Forall_impl; [ | apply logs_normal_ci].
    intros [ | | | | | ]; cbn; (exact (fun _ => I) || discriminate).
  - apply logs_sample_bootstrap_ci.
Qed.

(** A run of the resampling in which a drawn index is out of range. *)
Lemma bootstrap_ci_index_error f x y kwargs alpha b g idx g' :
  random_choice g (List.length x) b = (idx, g') ->
  ~ (Forall (in_range x) idx /\ Forall (in_range y) idx) ->
  bootstrap_ci (Some f) x y kwargs alpha (List.length x) b g =
  (Raise IndexError, g', [EvChoice (List.length x) b]).
Proof.
  intros Hdraw Hbad. unfold bootstrap_ci.
  rewrite (bind_step _ _ g idx g' [EvChoice (List.length x) b])
    by (unfold choice; rewrite Hdraw; reflexivity).
  destruct (fancy_index_cases x idx g') as [[Hx Ex] | [Hx Ex]].
  2:{ rewrite (bind_raise _ _ _ _ _ _ Ex). reflexivity. }
  rewrite (bind_silent _ _ _ _ Ex).
  destruct (fancy_index_cases y idx g') as [[Hy Ey] | [Hy Ey]].
  2:{ rewrite (bind_raise _ _ _ _ _ _ Ey). reflexivity. }
  exfalso. apply Hbad. now split.
Qed.

(** X6. [corr] takes the sample size from [x] alone.  On the resampling
    branch, when a drawn index is out of range for [x] or for [y] (as
    happens when [y] is shorter than [x]), the run ends with [IndexError]
    right after the draw, before the statistic is called on any resample. *)
Theorem out_of_range_draw_raises x y method alpha ci b bootstrap custom kwargs g
    f c p idx g' :
  outcome_of (resolve_corr_func method custom g) = Ok (Some f) ->
  f x y kwargs = Returned (c, p) ->
  Rabs c <> 1 ->
  ~ (bootstrap = false /\ Rabs c < spec_threshold method) ->
  random_choice g (List.length x) b = (idx, g') ->
  ~ (Forall (in_range x) idx /\ Forall (in_range y) idx) ->
  corr x y method false alpha ci b bootstrap custom kwargs g =
  (Raise IndexError, g', [EvStat x y kwargs; EvChoice (List.length x) b]).
Proof.
  intros Hres Hf Hc Hbranch Hdraw Hbad.
  rewrite (corr_run _ _ _ _ _ _ _ _ _ _ _ _ _ _ Hres Hf).
  rewrite Reqb_false by assumption. cbv zeta.
  assert (Hcond : negb bootstrap && Rltb (Rabs c) (spec_threshold method) = false).
  { destruct bootstrap; [reflexivity | ]. cbn [negb andb].
    apply Rltb_false. intros Hlt. apply Hbranch. now split. }
  rewrite Hcond.
  rewrite (bootstrap_ci_index_error f x y kwargs (effective_alpha alpha ci) b g
             idx g' Hdraw Hbad).
  reflexivity.
Qed.

(** *** What the providers are asked *)




(** *** Key errors *)

Lemma raises_getitem_present {V : Type} (Q : exn -> Prop) (d : dict V) k v :
  dict_get d k = Some v -> raises Q (getitem d k).
Proof. intros H. unfold getitem. rewrite H. apply raises_ret. Qed.

(** With a built-in selector the normal approximation ends with an
    arithmetic exception or not at all. *)
Lemma raises_normal_ci_builtin (Q : exn -> Prop) m c alpha n :
  Q ZeroDivisionError -> Q NotReal ->
  raises Q (normal_ci (name_of m) c alpha n).
Proof.
  intros Hz Hf.
  destruct (se_numerator_func_spec m) as (h & Hh & _).
  pose proof (se_denominator_diff_spec m) as Hd.
  unfold normal_ci.
  repeat first
    [ apply raises_ret | apply raises_emit | apply raises_ppf
    | eapply raises_getitem_present; eassumption
    | apply raises_np_div; assumption
    | apply raises_div_by_int; assumption
    | apply raises_np_log; assumption
    | apply raises_np_sqrt; assumption
    | apply raises_bind; [ | intro ] ].
Qed.

(** X8. No table access inside [corr] fails: the only key error a run can
    end with is the one raised for a selector outside the enumerated set. *)
Theorem key_error_only_for_invalid_method x y method skip_ci alpha ci b bootstrap
    custom kwargs g k :
  outcome_of (corr x y method skip_ci alpha ci b bootstrap custom kwargs g) =
  Raise (KeyError k) ->
  k = invalid_method_msg /\ ~ In method method_names.
Proof.
  corr_cases x y method skip_ci alpha ci b bootstrap custom kwargs g;
    try discriminate.
  - destruct skip_ci; [discriminate | ].
    destruct (Reqb (Rabs c) 1); [discriminate | ].
    cbv zeta. cbn [outcome_of fst].
    destruct bootstrap; cbn [negb andb].
    + pose proof (raises_bootstrap_ci (fun e => forall k, e <> KeyError k)
                    f x y kwargs (effective_alpha alpha ci) (List.length x) b
                    ltac:(discriminate) ltac:(discriminate) g) as Hr.
      destruct (outcome_of (bootstrap_ci _ _ _ _ _ _ _ g)) as [[lo hi] | e];
        cbn [with_bounds]; [discriminate | ].
      intros [= ->]. now destruct (Hr _ eq_refl k).
    + destruct (Rlt_dec (Rabs c) (spec_threshold method)) as [Hlt | Hge].
      * rewrite Rltb_true by assumption.
        destruct (positive_threshold_builtin method) as [m ->].
        { pose proof (Rabs_pos c). lra. }
        pose proof (raises_normal_ci_builtin (fun e => forall k, e <> KeyError k)
                      m c (effective_alpha alpha ci) (List.length x)
                      ltac:(discriminate) ltac:(discriminate) g) as Hr.
        destruct (outcome_of (normal_ci _ _ _ _ g)) as [[lo hi] | e];
          cbn [with_bounds]; [discriminate | ].
        intros [= ->]. now destruct (Hr _ eq_refl k).
      * rewrite Rltb_false by assumption.
        pose proof (raises_bootstrap_ci (fun e => forall k, e <> KeyError k)
                      f x y kwargs (effective_alpha alpha ci) (List.length x) b
                      ltac:(discriminate) ltac:(discriminate) g) as Hr.
        destruct (outcome_of (bootstrap_ci _ _ _ _ _ _ _ g)) as [[lo hi] | e];
          cbn [with_bounds]; [discriminate | ].
        intros [= ->]. now destruct (Hr _ eq_refl k).
  - cbn [outcome_of fst]. intros [= ->].
    destruct (in_dec string_dec method method_names) as [Hin | Hn].
    + destruct (resolve_corr_func_valid method custom g Hin) as [cf Hcf].
      congruence.
    + rewrite (resolve_corr_func_invalid method custom g Hn) in Hres.
      split; [congruence | assumption].
Qed.

(** *** Too few observations *)

(** X9. With kendall_tau or pearson_r and exactly as many observations as
    the offset of the method (4 and 3), the branch of the normal
    approximation divides by zero: the run ends with [ZeroDivisionError]
    after the transform, before the normal quantile is asked. *)
Theorem sample_at_offset_divides_by_zero m x y alpha ci b custom kwargs g c p :
  m <> SpearmanRho ->
  builtin_stat m x y kwargs = Returned (c, p) ->
  Rabs c < spec_threshold (name_of m) ->
  List.length x = spec_se_offset m ->
  corr x y (name_of m) false alpha ci b false custom kwargs g =
  (Raise ZeroDivisionError, g,
   [EvStat x y kwargs; EvFisher c; EvSeTable (name_of m)]).
Proof.
  intros Hm Hf Hthr Hn.
  pose proof (spec_threshold_le_1 (name_of m)) as Hle.
  pose proof (fisher_ratio_pos c ltac:(lra)) as Hratio.
  pose proof (Rabs_lt_1 c ltac:(lra)) as Hc'.
  assert (Hres : outcome_of (resolve_corr_func (name_of m) custom g) =
                 Ok (Some (builtin_stat m))) by (destruct m; reflexivity).
  rewrite (corr_run _ _ _ _ _ _ _ _ _ _ _ _ _ _ Hres Hf).
  rewrite Reqb_false by lra.
  rewrite Rltb_true by assumption. cbn [negb andb]. cbv zeta.
  destruct (se_numerator_func_spec m) as (h & Hh & _ & Hnum).
  pose proof (se_denominator_diff_spec m) as Hd.
  assert (Hrun : normal_ci (name_of m) c (effective_alpha alpha ci)
                   (List.length x) g =
                 (Raise ZeroDivisionError, g, [EvFisher c; EvSeTable (name_of m)])).
  { unfold normal_ci.
    eapply bind_logged; [reflexivity | ].
    rewrite bind_silent with (a := (1 + c) / (1 - c))
      by (unfold np_div; rewrite Reqb_false by lra; reflexivity).
    rewrite bind_silent with (a := ln ((1 + c) / (1 - c)))
      by (unfold np_log; rewrite Rltb_true by assumption; reflexivity).
    eapply bind_logged; [reflexivity | ].
    rewrite bind_silent with (a := h) by (unfold getitem; rewrite Hh; reflexivity).
    rewrite bind_silent with (a := Z.of_nat (spec_se_offset m))
      by (unfold getitem; rewrite Hd; reflexivity).
    rewrite Hn, Z.sub_diag, (Hnum Hm).
    apply bind_raise. cbn [div_by_int]. unfold py_div.
    rewrite Reqb_true by reflexivity.
    reflexivity. }
  rewrite Hrun. reflexivity.
Qed.

(** *** A resample on which the statistic fails *)

Lemma replicates_failed f kwargs (pre : list (array * array)) (cs : list R)
    (rr : array * array) (post : list (array * array)) msg g :
  Forall2 (fun r c => exists p, f (fst r) (snd r) kwargs = Returned (c, p))
          pre cs ->
  f (fst rr) (snd rr) kwargs = Failed msg ->
  mapM (fun r => bind (call (Some f) (fst r) (snd r) kwargs)
                      (fun v => let (c, _) := v in ret c))
       (pre ++ rr :: post) g =
  (Raise (External msg), g,
   map (fun r => EvStat (fst r) (snd r) kwargs) (pre ++ [rr])).
Proof.
  intros Hpre Hfail.
  induction Hpre as [ | r c pre cs [p Hp] _ IH]; cbn [app mapM map].
  - apply bind_raise. apply bind_raise. now apply call_failed.
  - eapply bind_logged.
    + rewrite (bind_step _ _ g (c, p) g [EvStat (fst r) (snd r) kwargs])
        by (now apply call_returned).
      reflexivity.
    + cbv beta. now apply bind_raise.
Qed.

Lemma bootstrap_ci_replicate_failed f x y kwargs alpha b g pre draw post g' cs msg :
  List.length x = List.length y ->
  random_choice g (List.length x) b = (pre ++ draw :: post, g') ->
  List.length (pre ++ draw :: post) = b ->
  Forall (in_range x) (pre ++ draw :: post) ->
  Forall2 (fun d c =>
             exists p, f (replicate_x x y d) (replicate_y x y d) kwargs
                       = Returned (c, p)) pre cs ->
  f (replicate_x x y draw) (replicate_y x y draw) kwargs = Failed msg ->
  bootstrap_ci (Some f) x y kwargs alpha (List.length x) b g =
  (Raise (External msg), g',
   EvChoice (List.length x) b
   :: map (fun d => EvStat (replicate_x x y d) (replicate_y x y d) kwargs)
          (pre ++ [draw])).
Proof.
  intros Hlen Hdraw Hb Hrange Hpre Hfail.
  set (idx := pre ++ draw :: post) in *.
  assert (Hpair : forall d, (gather x d, gather y d) =
                            (replicate_x x y d, replicate_y x y d)).
  { intros d. unfold gather.
    destruct (gather_pairs x y d Hlen) as [-> ->]. reflexivity. }
  unfold bootstrap_ci.
  rewrite (bind_step _ _ g idx g' [EvChoice (List.length x) b])
    by (unfold choice; rewrite Hdraw; reflexivity).
  destruct (fancy_index_cases x idx g') as [[_ Ex] | [Hx _]];
    [ | contradiction].
  rewrite (bind_silent _ _ _ _ Ex).
  destruct (fancy_index_cases y idx g') as [[_ Ey] | [Hy _]].
  2:{ exfalso. apply Hy. unfold in_range in *. now rewrite <- Hlen. }
  rewrite (bind_silent _ _ _ _ Ey).
  set (h := fun rx ry : array =>
              bind (call (Some f) rx ry kwargs) (fun v => let (c, _) := v in ret c)).
  pose proof (loop_rows h (map (gather x) idx) (map (gather y) idx) [] [] g'
                eq_refl) as Hloop.
  cbn [app List.length] in Hloop. rewrite !length_map, Hb in Hloop.
  specialize (Hloop eq_refl).
  rewrite combine_map_same in Hloop.
  rewrite (map_ext _ _ Hpair) in Hloop.
  assert (Hrows :
    mapM (fun rr => h (fst rr) (snd rr))
         (map (fun d => (replicate_x x y d, replicate_y x y d)) idx) g' =
    (Raise (External msg), g',
     map (fun d => EvStat (replicate_x x y d) (replicate_y x y d) kwargs)
         (pre ++ [draw]))).
  { unfold h, idx. rewrite map_app. cbn [map].
    rewrite (replicates_failed f kwargs _ cs _ _ msg).
    - rewrite !map_app, map_map. reflexivity.
    - apply Forall2_map_left. exact Hpre.
    - exact Hfail. }
  assert (Hloop' := eq_trans Hloop Hrows).
  unfold h in Hloop'. cbv beta in Hloop'.
  rewrite (bind_raise _ _ _ _ _ _ Hloop'). reflexivity.
Qed.

(** X10. When the statistic fails on a resample, the run ends with that
    failure, unchanged, at the first such resample: the statistic is not
    called on the resamples after it and no quantile is computed. *)
Theorem replicate_failure_propagates x y method alpha ci b bootstrap custom kwargs
    g f c p pre draw post g' cs msg :
  outcome_of (resolve_corr_func method custom g) = Ok (Some f) ->
  f x y kwargs = Returned (c, p) ->
  Rabs c <> 1 ->
  ~ (bootstrap = false /\ Rabs c < spec_threshold method) ->
  List.length x = List.length y ->
  random_choice g (List.length x) b = (pre ++ draw :: post, g') ->
  List.length (pre ++ draw :: post) = b ->
  Forall (in_range x) (pre ++ draw :: post) ->
  Forall2 (fun d ci =>
             exists pi, f (replicate_x x y d) (replicate_y x y d) kwargs
                        = Returned (ci, pi)) pre cs ->
  f (replicate_x x y draw) (replicate_y x y draw) kwargs = Failed msg ->
  corr x y method false alpha ci b bootstrap custom kwargs g =
  (Raise (External msg), g',
   EvStat x y kwargs
   :: EvChoice (List.length x) b
   :: map (fun d => EvStat (replicate_x x y d) (replicate_y x y d) kwargs)
          (pre ++ [draw])).
Proof.
  intros Hres Hf Hc Hbranch Hlen Hdraw Hb Hrange Hpre Hfail.
  rewrite (corr_run _ _ _ _ _ _ _ _ _ _ _ _ _ _ Hres Hf).
  rewrite Reqb_false by assumption. cbv zeta.
  assert (Hcond : negb bootstrap && Rltb (Rabs c) (spec_threshold method) = false).
  { destruct bootstrap; [reflexivity | ]. cbn [negb andb].
    apply Rltb_false. intros Hlt. apply Hbranch. now split. }
  rewrite Hcond.
  rewrite (bootstrap_ci_replicate_failed f x y kwargs (effective_alpha alpha ci) b
             g pre draw post g' cs msg) by assumption.
  reflexivity.
Qed.

(** *** How often the providers are called *)

Lemma count_app p (l1 l2 : list event) :
  count p (l1 ++ l2) = (count p l1 + count p l2)%nat.
Proof. unfold count. now rewrite filter_app, length_app. Qed.

Lemma at_most_weaken {A : Type} p n n' (m : M A) :
  at_most p n m -> (n <= n')%nat -> at_most p n' m.
Proof. intros H Hle g. specialize (H g). lia. Qed.

Lemma at_most_ret {A : Type} p (a : A) : at_most p 0 (ret a).
Proof. intros g. cbn. lia. Qed.

Lemma at_most_raise {A : Type} p e : at_most p 0 (@raise A e).
Proof. intros g. cbn. lia. Qed.

Lemma at_most_emit p e : at_most p (if p e then 1 else 0) (emit e).
Proof. intros g. unfold count. cbn. destruct (p e); cbn; lia. Qed.

Lemma at_most_bind {A B : Type} p n1 n2 (m : M A) (k : A -> M B) :
  at_most p n1 m -> (forall a, at_most p n2 (k a)) ->
  at_most p (n1 + n2) (bind m k).
Proof.
  intros Hm Hk g. unfold bind. specialize (Hm g).
  destruct (m g) as [[[a | e] g1] l1]; cbn [log_of snd] in *; [ | lia].
  specialize (Hk a g1). destruct (k a g1) as [[o g2] l2]; cbn [log_of snd] in *.
  rewrite count_app. lia.
Qed.

Lemma at_most_mapM {A B : Type} p n (k : A -> M B) (l : list A) :
  (forall a, at_most p n (k a)) -> at_most p (List.length l * n) (mapM k l).
Proof.
  intros Hk. induction l as [ | a l IH]; cbn [mapM List.length].
  - apply at_most_ret.
  - eapply at_most_weaken.
    + apply at_most_bind; [apply Hk | intros v].
      apply at_most_bind; [apply IH | intros vs]. apply at_most_ret.
    + lia.
Qed.

(** A computation that logs no event of kind [p] at all. *)
Lemma at_most_none {A : Type} p (m : M A) :
  logs (fun e => p e = false) m -> at_most p 0 m.
Proof.
  intros H g. specialize (H g). unfold count.
  induction H as [ | e l He _ IH]; cbn; [lia | ]. now rewrite He.
Qed.

Lemma at_most_call p cf x y kwargs :
  at_most p (if p (EvStat x y kwargs) then 1 else 0) (call cf x y kwargs).
Proof.
  unfold call. destruct cf as [f | ].
  - eapply at_most_weaken.
    + apply at_most_bind; [apply at_most_emit | intros _].
      destruct (f x y kwargs); [apply at_most_ret | apply at_most_raise].
    + lia.
  - eapply at_most_weaken; [apply at_most_raise | lia].
Qed.

Lemma at_most_choice p n b :
  at_most p (if p (EvChoice n b) then 1 else 0) (choice n b).
Proof.
  intros g. unfold choice, count. destruct (random_choice g n b). cbn.
  destruct (p (EvChoice n b)); cbn; lia.
Qed.

Lemma at_most_quantile p a q :
  at_most p (if p (EvQuantile a q) then 1 else 0) (quantile a q).
Proof.
  unfold quantile. eapply at_most_weaken.
  - apply at_most_bind; [apply at_most_emit | intros _].
    destruct (np_quantile a q); [apply at_most_ret | apply at_most_raise].
  - lia.
Qed.

Lemma at_most_ppf_normal_ci method c alpha n :
  at_most is_ppf 2 (normal_ci method c alpha n).
Proof.
  unfold normal_ci, ppf. eapply at_most_weaken.
  - repeat first
      [ apply at_most_ret
      | apply at_most_emit
      | apply at_most_none, logs_getitem
      | apply at_most_none, logs_np_div
      | apply at_most_none, logs_div_by_int
      | apply at_most_none, logs_np_log
      | apply at_most_none, logs_np_sqrt
      | apply at_most_bind; [ | intro ] ].
  - cbn. lia.
Qed.

(** The bootstrap: one draw, one call of the statistic per resample asked
    for, two quantiles. *)
Lemma at_most_bootstrap_ci p cf x y kwargs alpha n b :
  (forall u v k, p (EvStat u v k) = true) \/
  (forall u v k, p (EvStat u v k) = false) ->
  (forall a q, p (EvQuantile a q) = true) \/
  (forall a q, p (EvQuantile a q) = false) ->
  at_most p
    ((if p (EvChoice n b) then 1 else 0)
     + (b * (if p (EvStat [] [] kwargs) then 1 else 0)
        + ((if p (EvQuantile [] 0) then 1 else 0)
           + (if p (EvQuantile [] 0) then 1 else 0))))
    (bootstrap_ci cf x y kwargs alpha n b).
Proof.
  intros Hs Hq. unfold bootstrap_ci.
  apply at_most_bind; [apply at_most_choice | intros idx].
  apply (at_most_bind p 0); [apply at_most_none, logs_fancy_index | intros bx].
  apply (at_most_bind p 0); [apply at_most_none, logs_fancy_index | intros by_].
  apply at_most_bind.
  - apply at_most_weaken
      with (n := (List.length (seq 0 b)
                  * (if p (EvStat [] [] kwargs) then 1 else 0))%nat);
      [ | rewrite length_seq; lia].
    apply at_most_mapM. intros i.
    apply (at_most_bind p 0); [apply at_most_none, logs_row | intros rx].
    apply (at_most_bind p 0); [apply at_most_none, logs_row | intros ry].
    apply at_most_weaken
      with (n := ((if p (EvStat rx ry kwargs) then 1 else 0) + 0)%nat).
    + apply at_most_bind; [apply at_most_call | intros [c pv]; apply at_most_ret].
    + destruct Hs as [Hs | Hs]; rewrite !Hs; lia.
  - intros cs.
    apply at_most_weaken
      with (n := ((if p (EvQuantile cs (alpha / 2)) then 1 else 0)
                  + ((if p (EvQuantile cs (1 - alpha / 2)) then 1 else 0) + 0))%nat).
    + apply at_most_bind; [apply at_most_quantile | intros lo].
      apply at_most_bind; [apply at_most_quantile | intros hi; apply at_most_ret].
    + destruct Hq as [Hq | Hq]; rewrite !Hq; lia.
Qed.

(** X11. A run of [corr] calls the statistic at most [1 + bootstrap_samples]
    times, the sampler at most once, the sample quantile at most twice and
    the normal quantile at most twice. *)
Theorem call_budget x y method skip_ci alpha ci b bootstrap custom kwargs g :
  let l := log_of (corr x y method skip_ci alpha ci b bootstrap custom kwargs g) in
  (count is_stat l <= 1 + b)%nat /\
  (count is_choice l <= 1)%nat /\
  (count is_quantile l <= 2)%nat /\
  (count is_ppf l <= 2)%nat.
Proof.
  cbv zeta.
  corr_cases x y method skip_ci alpha ci b bootstrap custom kwargs g;
    try (cbn; lia).
  destruct skip_ci; [cbn; lia | ].
  destruct (Reqb (Rabs c) 1); [cbn; lia | ].
  cbv zeta. cbn [log_of snd].
  change (EvStat x y kwargs :: ?l) with ([EvStat x y kwargs] ++ l).
  rewrite !count_app.
  change (count is_stat [EvStat x y kwargs]) with 1%nat.
  change (count is_choice [EvStat x y kwargs]) with 0%nat.
  change (count is_quantile [EvStat x y kwargs]) with 0%nat.
  change (count is_ppf [EvStat x y kwargs]) with 0%nat.
  destruct (negb bootstrap && Rltb (Rabs c) (spec_threshold method)).
  - pose proof (logs_normal_ci method c (effective_alpha alpha ci)
                  (List.length x)) as Hn.
    assert (H0 : forall k, (forall e, is_normal_event e = true -> k e = false) ->
                           count k (log_of (normal_ci method c
                             (effective_alpha alpha ci) (List.length x) g)) = 0%nat).
    { intros k Hk.
      assert (Hle : at_most k 0 (normal_ci method c (effective_alpha alpha ci)
                                   (List.length x))).
      { apply at_most_none. intros g0. eapply Forall_impl; [ | apply Hn].
        exact Hk. }
      specialize (Hle g). lia. }
    rewrite (H0 is_stat), (H0 is_choice), (H0 is_quantile);
      try (intros [ | | | | | ]; cbn; congruence).
    pose proof (at_most_ppf_normal_ci method c (effective_alpha alpha ci)
                  (List.length x) g).
    lia.
  - pose proof (at_most_bootstrap_ci is_stat (Some f) x y kwargs
                  (effective_alpha alpha ci) (List.length x) b
                  (or_introl (fun _ _ _ => eq_refl))
                  (or_intror (fun _ _ => eq_refl)) g) as Hs.
    pose proof (at_most_bootstrap_ci is_choice (Some f) x y kwargs
                  (effective_alpha alpha ci) (List.length x) b
                  (or_intror (fun _ _ _ => eq_refl))
                  (or_intror (fun _ _ => eq_refl)) g) as Hc.
    pose proof (at_most_bootstrap_ci is_quantile (Some f) x y kwargs
                  (effective_alpha alpha ci) (List.length x) b
                  (or_intror (fun _ _ _ => eq_refl))
                  (or_introl (fun _ _ => eq_refl)) g) as Hq.
    pose proof (at_most_bootstrap_ci is_ppf (Some f) x y kwargs
                  (effective_alpha alpha ci) (List.length x) b
                  (or_intror (fun _ _ _ => eq_refl))
                  (or_intror (fun _ _ => eq_refl)) g) as Hp.
    cbn [is_stat is_choice is_quantile is_ppf] in Hs, Hc, Hq, Hp.
    lia.
Qed.

(** *** The interval of the normal approximation *)





End Correlation.

(** ** Concrete runs

    The properties above, at concrete providers and inputs. *)

Import Doubles.

Ltac abs_half := unfold Rabs; destruct (Rcase_abs _); lra.

Lemma quantile_linear_pair v q :
  0 <= q <= 1 -> quantile_linear [v; v] q = Returned v.
Proof.
  intros Hq. unfold quantile_linear.
  rewrite (Rltb_false q 0), (Rltb_false 1 q) by lra.
  cbn [orb sort fold_right insert_sorted].
  replace (if Rle_dec v v then [v; v] else [v; v]) with [v; v]
    by (destruct (Rle_dec v v); reflexivity).
  cbn [List.length last].
  set (lo := Z.to_nat (Zfloor (q * INR 1))).
  replace (nth lo [v; v] v) with v
    by (destruct lo as [ | [ | [ | lo]]]; reflexivity).
  replace (nth (S lo) [v; v] v) with v
    by (destruct lo as [ | [ | lo]]; reflexivity).
  f_equal. lra.
Qed.



(** The statistic [(1/2, 1/20)] bound to the three built-in selectors, the
    normal quantile 1.96, the generator that draws index 0 and the quantile
    by linear interpolation. *)
Local Abbreviation half := (const_stat (1 / 2) (1 / 20)).
Local Abbreviation corr_half :=
  (corr nat unit half half half ppf_975 zero_draw quantile_linear).
Local Abbreviation obs := [1; 2; 3; 4; 5; 6].

(** C1 at kendall_tau, coefficient 1/2, [bootstrap] false. *)
Lemma strategy_selection_witness :
  let l := log_of nat unit
             (corr_half obs obs "kendall_tau" false 0.05 None 2%nat false None tt
                0%nat) in
  (took_normal unit l = true <->
   false = false /\ Rabs (1 / 2) < spec_threshold "kendall_tau") /\
  (took_resampling unit l = true <->
   ~ (false = false /\ Rabs (1 / 2) < spec_threshold "kendall_tau")).
Proof.
  apply (strategy_selection nat unit half half half ppf_975 zero_draw
           quantile_linear obs obs "kendall_tau" 0.05 None 2%nat false None tt
           0%nat half (1 / 2) (1 / 20));
    [reflexivity | reflexivity | abs_half].
Defined.

(** C2 at pearson_r, coefficient 1/2, six observations. *)
Lemma normal_bounds_formula_witness :
  exists lo hi,
    outcome_of nat unit
      (corr_half obs obs "pearson_r" false 0.05 None 2%nat false None tt 0%nat) =
    Ok (1 / 2, Some lo, Some hi, 1 / 20).
Proof.
  do 2 eexists.
  apply (normal_bounds_formula nat unit half half half ppf_975 zero_draw
           quantile_linear PearsonR obs obs 0.05 None 2%nat None tt 0%nat
           (1 / 2) (1 / 20)).
  - reflexivity.
  - change (spec_threshold (name_of PearsonR)) with 1. abs_half.
  - cbn. lia.
Defined.

(** C3 at pearson_r with [bootstrap] true, two resamples of three pairs. *)
Lemma resampling_bounds_witness :
  let run := corr_half [1; 2; 3] [1; 2; 3] "pearson_r" false 0.05 None 2%nat true
               None tt 0%nat in
  outcome_of nat unit run = Ok (1 / 2, Some (1 / 2), Some (1 / 2), 1 / 20) /\
  state_of nat unit run = 1%nat.
Proof.
  assert (Hq : forall q, 0 <= q <= 1 ->
                         quantile_linear [1 / 2; 1 / 2] q = Returned (1 / 2))
    by (intros q; apply quantile_linear_pair).
  pose proof (resampling_bounds nat unit half half half ppf_975 zero_draw
                quantile_linear [1; 2; 3] [1; 2; 3] "pearson_r" 0.05 None 2%nat
                true None tt 0%nat half (1 / 2) (1 / 20)
                [[0; 0; 0]; [0; 0; 0]]%nat 1%nat [1 / 2; 1 / 2] (1 / 2) (1 / 2)
                eq_refl eq_refl) as H.
  cbv zeta in H.
  refine ((fun H' => conj (proj1 H') (proj1 (proj2 H'))) (H _ _ _ _ _ _ _ _ _)).
  - abs_half.
  - intros [Hb _]. discriminate Hb.
  - reflexivity.
  - reflexivity.
  - reflexivity.
  - repeat (constructor; try (cbn; lia)).
  - repeat constructor; exists (1 / 20); reflexivity.
  - apply Hq. unfold effective_alpha. lra.
  - apply Hq. unfold effective_alpha. lra.
Defined.



(** C5 at a statistic that returns coefficient 1. *)
Lemma degenerate_collapse_witness :
  corr nat unit (const_stat 1 0) (const_stat 1 0) (const_stat 1 0) ppf_975
    zero_draw quantile_linear obs obs "spearman_rho" false 0.05 None 2%nat false
    None tt 0%nat =
  (Ok (1, Some 1, Some 1, 0), 0%nat, [EvStat unit obs obs tt]).
Proof.
  apply (degenerate_collapse nat unit (const_stat 1 0) (const_stat 1 0)
           (const_stat 1 0) ppf_975 zero_draw quantile_linear obs obs
           "spearman_rho" 0.05 None 2%nat false None tt 0%nat (const_stat 1 0)
           1 0);
    [reflexivity | reflexivity | apply Rabs_R1].
Defined.

(** C6 at kendall_tau. *)
Lemma skip_ci_returns_early_witness :
  corr_half obs obs "kendall_tau" true 0.05 None 2%nat false None tt 0%nat =
  (Ok (1 / 2, None, None, 1 / 20), 0%nat, [EvStat unit obs obs tt]).
Proof.
  apply (skip_ci_returns_early nat unit half half half ppf_975 zero_draw
           quantile_linear obs obs "kendall_tau" 0.05 None 2%nat false None tt
           0%nat half (1 / 2) (1 / 20));
    reflexivity.
Defined.

(** C7 as stated fails: with the selector customized and no function, the
    run ends with the type error of calling [None], not with the error of
    the invalid method. *)
Lemma invalid_method_counterexample :
  ~ (outcome_of nat unit
       (corr_half obs obs "customized" false 0.05 None 2%nat false None tt 0%nat) =
     Raise (KeyError invalid_method_msg) <->
     ~ In "customized"%string method_names \/
     ("customized"%string = "customized"%string /\
      (None : option (stat_fn unit)) = None)).
Proof.
  intros [_ H].
  specialize (H (or_intror (conj eq_refl eq_refl))).
  rewrite (corr_not_callable nat unit half half half ppf_975 zero_draw
             quantile_linear obs obs "customized" false 0.05 None 2%nat false
             None tt 0%nat eq_refl) in H.
  discriminate H.
Qed.


(** *** More concrete runs *)

Lemma constant_sensitive_stat_varying x0 x1 xs y :
  x0 <> x1 ->
  constant_sensitive_stat (x0 :: x1 :: xs) y tt = Returned (1 / 2, 1 / 20).
Proof. intros H. unfold constant_sensitive_stat. now rewrite Reqb_false. Qed.

Lemma constant_sensitive_stat_constant x0 xs y :
  constant_sensitive_stat (x0 :: x0 :: xs) y tt = Failed "x is constant".
Proof. unfold constant_sensitive_stat. now rewrite Reqb_true. Qed.



(** A run of the resampling moves the generator from 0 to 1. *)
Lemma generator_advances_only_when_resampling_witness :
  exists f c p,
    outcome_of nat unit
      (resolve_corr_func nat unit half half half "pearson_r" None 0%nat) =
    Ok (Some f) /\
    f [1; 2; 3] [1; 2; 3] tt = Returned (c, p) /\
    false = false /\
    Rabs c <> 1 /\
    ~ (true = false /\ Rabs c < spec_threshold "pearson_r").
Proof.
  apply (generator_advances_only_when_resampling nat unit half half half ppf_975
           zero_draw quantile_linear [1; 2; 3] [1; 2; 3] "pearson_r" false 0.05
           None 2%nat true None tt 0%nat).
  rewrite (corr_resampling_run nat unit half half half ppf_975 zero_draw
             quantile_linear [1; 2; 3] [1; 2; 3] "pearson_r" 0.05 None 2%nat true
             None tt 0%nat half (1 / 2) (1 / 20) [[0; 0; 0]; [0; 0; 0]]%nat 1%nat
             [1 / 2; 1 / 2] (1 / 2) (1 / 2)).
  - cbn. discriminate.
  - reflexivity.
  - reflexivity.
  - abs_half.
  - intros [Hb _]. discriminate Hb.
  - reflexivity.
  - reflexivity.
  - reflexivity.
  - repeat (constructor; try (cbn; lia)).
  - repeat constructor; exists (1 / 20); reflexivity.
  - apply quantile_linear_pair. unfold effective_alpha. lra.
  - apply quantile_linear_pair. unfold effective_alpha. lra.
Defined.

(** A statistic that fails on the full sample. *)
Lemma statistic_failure_propagates_witness :
  corr nat unit failing_stat failing_stat failing_stat ppf_975 zero_draw
    quantile_linear obs obs "pearson_r" false 0.05 None 2%nat true None tt 0%nat =
  (Raise (External "statistic failed"), 0%nat, [EvStat unit obs obs tt]).
Proof.
  apply (statistic_failure_propagates nat unit failing_stat failing_stat
           failing_stat ppf_975 zero_draw quantile_linear obs obs "pearson_r"
           false 0.05 None 2%nat true None tt 0%nat failing_stat
           "statistic failed");
    reflexivity.
Defined.

(** The tuple of a run with [skip_ci] true. *)
Lemma result_shape_witness :
  (exists f,
      outcome_of nat unit
        (resolve_corr_func nat unit half half half "kendall_tau" None 0%nat) =
      Ok (Some f) /\
      f obs obs tt = Returned (1 / 2, 1 / 20)) /\
  ((true = true /\ (None : option R) = None /\ (None : option R) = None) \/
   (true = false /\
    exists vl vh : R, (None : option R) = Some vl /\ (None : option R) = Some vh)).
Proof.
  apply (result_shape nat unit half half half ppf_975 zero_draw quantile_linear
           obs obs "kendall_tau" true 0.05 None 2%nat false None tt 0%nat
           (1 / 2) None None (1 / 20) 0%nat [EvStat unit obs obs tt]).
  apply (corr_run nat unit half half half ppf_975 zero_draw quantile_linear
           obs obs "kendall_tau" true 0.05 None 2%nat false None tt 0%nat half
           (1 / 2) (1 / 20));
    reflexivity.
Defined.

(** [y] is empty: index 0 is out of its range. *)
Lemma out_of_range_draw_raises_witness :
  corr_half [1; 2; 3] [] "pearson_r" false 0.05 None 1%nat true None tt 0%nat =
  (Raise IndexError, 1%nat, [EvStat unit [1; 2; 3] [] tt; EvChoice unit 3 1]).
Proof.
  apply (out_of_range_draw_raises nat unit half half half ppf_975 zero_draw
           quantile_linear [1; 2; 3] [] "pearson_r" 0.05 None 1%nat true None tt
           0%nat half (1 / 2) (1 / 20) [[0; 0; 0]]%nat 1%nat).
  - reflexivity.
  - reflexivity.
  - abs_half.
  - intros [Hb _]. discriminate Hb.
  - reflexivity.
  - intros [_ Hy]. inversion Hy as [ | d ds Hd _]; subst.
    inversion Hd as [ | i is_ Hi _]; subst. cbn in Hi. lia.
Defined.

(** A selector outside the enumerated set. *)
Lemma key_error_only_for_invalid_method_witness :
  invalid_method_msg = invalid_method_msg /\ ~ In "kendall"%string method_names.
Proof.
  apply (key_error_only_for_invalid_method nat unit half half half ppf_975
           zero_draw quantile_linear obs obs "kendall" false 0.05 None 2%nat false
           None tt 0%nat invalid_method_msg).
  reflexivity.
Defined.

(** kendall_tau on four observations. *)
Lemma sample_at_offset_divides_by_zero_witness :
  corr_half [1; 2; 3; 4] [1; 2; 3; 4] "kendall_tau" false 0.05 None 2%nat false None
    tt 0%nat =
  (Raise ZeroDivisionError, 0%nat,
   [EvStat unit [1; 2; 3; 4] [1; 2; 3; 4] tt; EvFisher unit (1 / 2);
    EvSeTable unit "kendall_tau"]).
Proof.
  apply (sample_at_offset_divides_by_zero nat unit half half half ppf_975
           zero_draw quantile_linear KendallTau [1; 2; 3; 4] [1; 2; 3; 4] 0.05
           None 2%nat None tt 0%nat (1 / 2) (1 / 20)).
  - discriminate.
  - reflexivity.
  - change (spec_threshold (name_of KendallTau)) with 0.8. abs_half.
  - reflexivity.
Defined.

(** The first resample repeats one observation, on which the statistic is
    undefined. *)
Lemma replicate_failure_propagates_witness :
  corr nat unit half half half ppf_975 zero_draw quantile_linear [0; 1; 2]
    [0; 1; 2] "customized" false 0.05 None 2%nat false
    (Some constant_sensitive_stat) tt 0%nat =
  (Raise (External "x is constant"), 1%nat,
   EvStat unit [0; 1; 2] [0; 1; 2] tt
   :: EvChoice unit 3 2
   :: map (fun d => EvStat unit (replicate_x [0; 1; 2] [0; 1; 2] d)
                      (replicate_y [0; 1; 2] [0; 1; 2] d) tt)
          ([] ++ [[0; 0; 0]%nat])).
Proof.
  apply (replicate_failure_propagates nat unit half half half ppf_975 zero_draw
           quantile_linear [0; 1; 2] [0; 1; 2] "customized" 0.05 None 2%nat false
           (Some constant_sensitive_stat) tt 0%nat constant_sensitive_stat
           (1 / 2) (1 / 20) [] [0; 0; 0]%nat [[0; 0; 0]%nat] 1%nat [] "x is constant").
  - reflexivity.
  - apply constant_sensitive_stat_varying. lra.
  - abs_half.
  - intros [_ Hlt]. change (spec_threshold "customized") with 0 in Hlt.
    pose proof (Rabs_pos (1 / 2)). lra.
  - reflexivity.
  - reflexivity.
  - reflexivity.
  - repeat (constructor; try (cbn; lia)).
  - constructor.
  - apply constant_sensitive_stat_constant.
Defined.



(** ** [corr] in double precision

    Runs of [F64.corr], and what they show about statements on the exact
    values of the bounds. *)

(** [corr] with a constant statistic bound to the three built-in selectors
    and the providers of [F64]. *)
Local Abbreviation corr64 c :=
  (F64.corr nat unit (F64.const_stat c 0%float) (F64.const_stat c 0%float)
     (F64.const_stat c 0%float) F64.log_table F64.exp_table F64.ppf_table
     F64.cycling_draw F64.quantile_linear).
Local Abbreviation obs64 := [0; 1; 2; 3; 4; 5]%float.




(** Rounding in the transform and its inverse: at quantile 0 both bounds
    are one unit in the last place above the coefficient. *)
Example rounding_at_zero_quantile :
  corr64 0.5%float obs64 obs64 "pearson_r" false 1%float None 5000%nat false None
    tt 0%nat =
  (Ok (0.5, Some 0.50000000000000011, Some 0.50000000000000011, 0)%float, 0%nat).
Proof. vm_compute. reflexivity. Qed.

(** spearman_rho on three observations: the division by [n - 3 = 0] is
    numpy's, the standard error is infinite and the bounds are -1 and NaN. *)
Example spearman_on_three_observations :
  corr64 0.5%float [0; 1; 2]%float [0; 1; 2]%float "spearman_rho" false 0.05%float
    None 5000%nat false None tt 0%nat =
  (Ok (0.5, Some (-1), Some nan, 0)%float, 0%nat).
Proof. vm_compute. reflexivity. Qed.

(** kendall_tau on two observations: the square root of a negative number
    is NaN, and so are both bounds. *)
Example kendall_on_two_observations :
  corr64 0.5%float [0; 1]%float [0; 1]%float "kendall_tau" false 0.05%float None
    5000%nat false None tt 0%nat =
  (Ok (0.5, Some nan, Some nan, 0)%float, 0%nat).
Proof. vm_compute. reflexivity. Qed.

(** A comparison with NaN is false. *)
Lemma ltb_abs_nan (t : float) : PrimFloat.ltb (PrimFloat.abs nan) t = false.
Proof. rewrite FloatAxioms.ltb_spec. reflexivity. Qed.

(** X16. A NaN coefficient, as scipy returns on constant data, is neither
    of modulus 1 nor below a threshold: the bounds come from the resampling
    whatever [bootstrap] is. *)
Theorem nan_coefficient_resamples (G K : Type)
    (kendall spearman pearson : F64.stat_fn K) (log exp ppf : float -> float)
    (draw : G -> nat -> nat -> list (list nat) * G)
    (quantile : list float -> float -> provided float)
    x y method alpha ci b bootstrap custom kwargs g f p :
  fst (F64.resolve_corr_func G K kendall spearman pearson method custom g) =
  Ok (Some f) ->
  f x y kwargs = Returned (nan, p) ->
  F64.corr G K kendall spearman pearson log exp ppf draw quantile
    x y method false alpha ci b bootstrap custom kwargs g =
  F64.corr G K kendall spearman pearson log exp ppf draw quantile
    x y method false alpha ci b true custom kwargs g.
Proof.
  intros Hres Hf. destruct bootstrap; [reflexivity | ].
  unfold F64.corr, F64.bind.
  destruct (F64.resolve_corr_func G K kendall spearman pearson method custom g)
    as [[cf | e] g1] eqn:E; cbn [fst] in Hres; [ | discriminate].
  injection Hres as ->.
  cbn [F64.call]. rewrite Hf. cbn [F64.ret].
  change (PrimFloat.eqb (PrimFloat.abs nan) 1) with false.
  cbn [negb].
  assert (Hthr : exists t, dict_get (F64.param_corr_thres) method = Some t).
  { unfold F64.resolve_corr_func in E.
    destruct (String.eqb_spec method "customized") as [-> | Hc];
      [eexists; reflexivity | ].
    destruct (String.eqb_spec method "kendall_tau") as [-> | Hk];
      [eexists; reflexivity | ].
    destruct (String.eqb_spec method "spearman_rho") as [-> | Hs];
      [eexists; reflexivity | ].
    destruct (String.eqb_spec method "pearson_r") as [-> | Hp];
      [eexists; reflexivity | ].
    exfalso. apply String.eqb_neq in Hc, Hk, Hs, Hp.
    unfold dict_mem, F64.corr_functions in E. cbn [dict_get] in E.
    rewrite Hc, Hk, Hs, Hp in E. cbn in E. discriminate. }
  destruct Hthr as [t Ht].
  unfold F64.getitem. rewrite Ht. cbn [F64.ret].
  rewrite ltb_abs_nan. reflexivity.
Qed.

(** pearson_r returning NaN on constant data: the run without [bootstrap]
    is the run with it. *)
Lemma nan_coefficient_resamples_witness :
  corr64 nan [1; 1; 1]%float [1; 1; 1]%float "pearson_r" false 0.05%float None
    2%nat false None tt 0%nat =
  corr64 nan [1; 1; 1]%float [1; 1; 1]%float "pearson_r" false 0.05%float None
    2%nat true None tt 0%nat.
Proof.
  apply (nan_coefficient_resamples nat unit (F64.const_stat nan 0%float)
           (F64.const_stat nan 0%float) (F64.const_stat nan 0%float)
           F64.log_table F64.exp_table F64.ppf_table F64.cycling_draw
           F64.quantile_linear [1; 1; 1]%float [1; 1; 1]%float "pearson_r"
           0.05%float None 2%nat false None tt 0%nat
           (F64.const_stat nan 0%float) 0%float);
    reflexivity.
Defined.

(** The run of the witness above: the generator has advanced and the
    bounds are quantiles of NaN replicates. *)
Example nan_coefficient_run :
  corr64 nan [1; 1; 1]%float [1; 1; 1]%float "pearson_r" false 0.05%float None
    2%nat false None tt 0%nat =
  (Ok (nan, Some nan, Some nan, 0)%float, 1%nat).
Proof. vm_compute. reflexivity. Qed.
